(** * The audit subsystem of nodelogger: hash chain, memory store, sink writer
      and audit logger, embedded from [src/audit/chain.ts],
      [src/audit/store.ts], [src/audit/config.ts], [src/audit/types.ts] and
      [src/audit/logger.ts].

    Conventions of the embedding.
    - A JavaScript [number] that the code uses as a counter, an index, a size
      or a millisecond time stamp is an integer of [Z]; the development covers
      the range in which a double represents integers exactly.
    - An optional property ([x?: T]) is an [option]; [None] is an absent
      property.
    - A [Date] is its [getTime()] value.
    - What Node provides ([crypto.createHash], [JSON.stringify], the file
      system, [fetch], the console) is a variable of the section that uses it.
    - A promise is modelled by the way it settles ([Settled]); an [async]
      method is a function from the state before to the state after and the
      settlement. *)

From Stdlib Require Import ZArith List String Ascii Bool Lia.
From Stdlib Require Import Permutation Sorted DecimalString.
Import ListNotations.

Local Open Scope string_scope.
Local Open Scope list_scope.
Local Open Scope Z_scope.

(** ** JavaScript helpers *)

Module Js.

(** [a ?? b] *)
Definition nullish {A : Type} (a : option A) (b : A) : A :=
  match a with Some x => x | None => b end.

(** Property of a spread [{...base, ...over}] when the property is optional
    in [over]. *)
Definition spread {A : Type} (base : A) (over : option A) : A :=
  match over with Some x => x | None => base end.

Definition spread_opt {A : Type} (base over : option A) : option A :=
  match over with Some x => Some x | None => base end.

(** Truthiness of a string: the empty string is falsy. *)
Definition truthy_string (s : string) : bool :=
  match s with EmptyString => false | String _ _ => true end.

(** [`${n}`] for an integer [n]. *)
Definition number_to_string (n : Z) : string :=
  NilZero.string_of_int (Z.to_int n).

(** [array.length] *)
Definition Array_length {A : Type} (l : list A) : Z :=
  Z.of_nat (List.length l).

(** Clamping of a relative index, as [Array.prototype.slice] does for both
    of its arguments: a negative index counts from the end. *)
Definition relative_index (len i : Z) : Z :=
  if i <? 0 then Z.max (len + i) 0 else Z.min i len.

(** [array.slice(start, end)] *)
Definition Array_slice {A : Type} (l : list A) (start end_ : Z) : list A :=
  let len := Array_length l in
  let k := relative_index len start in
  let final := relative_index len end_ in
  firstn (Z.to_nat (final - k)) (skipn (Z.to_nat k) l).

(** [array.slice(start)] *)
Definition Array_slice_from {A : Type} (l : list A) (start : Z) : list A :=
  let len := Array_length l in
  let k := relative_index len start in
  firstn (Z.to_nat (len - k)) (skipn (Z.to_nat k) l).

(** [array.sort(compare)]: the sort is stable, an element [x] that precedes
    [y] in the input stays before it unless [compare x y > 0].  For a
    consistent comparator this determines the result; it is computed here
    by stable insertion. *)
Section Sort.
Context {A : Type} (compare : A -> A -> Z).

Fixpoint sort_insert (x : A) (l : list A) : list A :=
  match l with
  | [] => [x]
  | y :: l' =>
      if compare x y <=? 0 then x :: y :: l' else y :: sort_insert x l'
  end.

Fixpoint Array_sort (l : list A) : list A :=
  match l with
  | [] => []
  | x :: l' => sort_insert x (Array_sort l')
  end.
End Sort.

(** [array.includes(x)] for an equality test [eqb]. *)
Definition Array_includes {A : Type} (eqb : A -> A -> bool)
           (l : list A) (x : A) : bool :=
  existsb (eqb x) l.

(** [s.toLowerCase()] on the ASCII letters. *)
Definition lower_ascii (c : ascii) : ascii :=
  let n := nat_of_ascii c in
  if ((65 <=? n)%nat && (n <=? 90)%nat)%bool then ascii_of_nat (n + 32) else c.

Fixpoint toLowerCase (s : string) : string :=
  match s with
  | EmptyString => EmptyString
  | String c s' => String (lower_ascii c) (toLowerCase s')
  end.

(** [hay.includes(needle)] on strings. *)
Fixpoint String_includes (hay needle : string) : bool :=
  String.prefix needle hay
  || match hay with
     | EmptyString => false
     | String _ hay' => String_includes hay' needle
     end.

(** How a promise settles. *)
Inductive Settled (A : Type) : Type :=
| Fulfilled (value : A)
| Rejected (reason : string).
Arguments Fulfilled {A} value.
Arguments Rejected {A} reason.

(** [Promise.allSettled]: fulfils with the status of every promise, whatever
    they are. *)
Inductive SettledResult : Type :=
| status_fulfilled
| status_rejected (reason : string).

Definition settled_result {A : Type} (p : Settled A) : SettledResult :=
  match p with
  | Fulfilled _ => status_fulfilled
  | Rejected r => status_rejected r
  end.

Definition Promise_allSettled {A : Type} (ps : list (Settled A))
  : Settled (list SettledResult) :=
  Fulfilled (map settled_result ps).

End Js.
Export Js.

(** ** types.ts *)

Inductive EventType : Type :=
| AUTH | AUTHZ | DATA_ACCESS | DATA_MODIFY | CONFIG_CHANGE | ADMIN_ACTION
| SECURITY_EVENT | USER_LIFECYCLE | API_ACCESS | SYSTEM | CUSTOM.

Inductive Outcome : Type := SUCCESS | FAILURE | PENDING | UNKNOWN.

Definition EventType_eqb (a b : EventType) : bool :=
  match a, b with
  | AUTH, AUTH | AUTHZ, AUTHZ | DATA_ACCESS, DATA_ACCESS
  | DATA_MODIFY, DATA_MODIFY | CONFIG_CHANGE, CONFIG_CHANGE
  | ADMIN_ACTION, ADMIN_ACTION | SECURITY_EVENT, SECURITY_EVENT
  | USER_LIFECYCLE, USER_LIFECYCLE | API_ACCESS, API_ACCESS
  | SYSTEM, SYSTEM | CUSTOM, CUSTOM => true
  | _, _ => false
  end.

Definition Outcome_eqb (a b : Outcome) : bool :=
  match a, b with
  | SUCCESS, SUCCESS | FAILURE, FAILURE | PENDING, PENDING
  | UNKNOWN, UNKNOWN => true
  | _, _ => false
  end.

(** A value of type [unknown] in a [Record<string, unknown>]. *)
#[local] Set Warnings "-register-all".
Inductive JsValue : Type :=
| JsNull
| JsBool (b : bool)
| JsNumber (n : Z)
| JsString (s : string)
| JsArray (l : list JsValue)
| JsObject (fields : list (string * JsValue)).
#[local] Set Warnings "register-all".

Definition JsRecord : Type := list (string * JsValue).

Record AuditActor : Type := mkActor {
  actor_id : option string;
  actor_type : option string;
  actor_name : option string;
  actor_ip : option string;
  actor_userAgent : option string;
  actor_sessionId : option string;
  actor_metadata : option JsRecord
}.

Record AuditResource : Type := mkResource {
  resource_id : option string;
  resource_type : option string;
  resource_name : option string;
  resource_path : option string;
  resource_metadata : option JsRecord
}.

Record TraceContext : Type := mkTrace {
  traceId : option string;
  spanId : option string;
  parentSpanId : option string;
  traceFlags : option Z;
  traceState : option string
}.

Record ErrorInfo : Type := mkErrorInfo {
  error_code : option string;
  error_message : option string;
  error_stack : option string
}.

Record AuditEvent : Type := mkEvent {
  type : EventType;
  action : string;
  outcome : Outcome;
  description : option string;
  actor : option AuditActor;
  actorId : option string;
  actorType : option string;
  actorIp : option string;
  resource : option AuditResource;
  resourceId : option string;
  resourceType : option string;
  trace : option TraceContext;
  requestId : option string;
  data : option JsRecord;
  tags : option (list string);
  durationMs : option Z;
  error : option ErrorInfo
}.

Record ServiceInfo : Type := mkService {
  service_name : string;
  service_version : string;
  service_environment : string
}.

(** chain.ts, [ChainEntry] (the same shape as [AuditEntry.chain]). *)
Record ChainEntry : Type := mkChainEntry {
  hash : string;
  previousHash : string;
  sequence : Z
}.

Record AuditEntry : Type := mkEntry {
  id : string;
  timestamp : Z;
  event : AuditEvent;
  service : option ServiceInfo;
  chain : option ChainEntry;
  signature : option string
}.

(** [entry.chain = c] *)
Definition set_chain (entry : AuditEntry) (c : ChainEntry) : AuditEntry :=
  mkEntry (id entry) (timestamp entry) (event entry) (service entry)
          (Some c) (signature entry).

Inductive SortOrder : Type := asc | desc.

Record TimeRange : Type := mkTimeRange {
  range_start : option Z;
  range_end : option Z
}.

Record AuditQuery : Type := mkQuery {
  timeRange : option TimeRange;
  eventTypes : option (list EventType);
  actions : option (list string);
  outcomes : option (list Outcome);
  actorIds : option (list string);
  resourceTypes : option (list string);
  resourceIds : option (list string);
  q_tags : option (list string);
  search : option string;
  limit : option Z;
  offset : option Z;
  sort : option SortOrder
}.

Record AuditQueryResult : Type := mkQueryResult {
  entries : list AuditEntry;
  total : Z;
  hasMore : bool
}.

(** The sink variants.  The handler of a custom sink is a function of the
    caller; it is identified by a name and the environment says how a call
    of it settles. *)
Inductive AuditSink : Type :=
| sink_file (path : string) (rotate : option bool)
| sink_webhook (url : string) (headers : option (list (string * string)))
| sink_console
| sink_custom (handler : string).

(** ** config.ts *)

Inductive HashAlgorithm : Type := sha256 | sha512.

Inductive StoreType : Type := store_memory | store_file.

Record StoreConfig : Type := mkStoreConfig {
  store_type : StoreType;
  store_filePath : option string;
  store_maxSize : option Z;
  store_bufferSize : option Z;
  store_flushInterval : option Z
}.

Record AuditConfig : Type := mkConfig {
  enableStructured : bool;
  hashChain : bool;
  hashAlgorithm : HashAlgorithm;
  serviceName : string;
  serviceVersion : string;
  environment : string;
  retentionDays : Z;
  enableSignatures : bool;
  signingKey : option string;
  sinks : list AuditSink;
  includeStackTraces : bool;
  autoDelete : bool;
  bufferSize : Z;
  flushInterval : Z;
  store : option StoreConfig
}.

(** [Partial<AuditConfig>] *)
Record PartialAuditConfig : Type := mkPartial {
  p_enableStructured : option bool;
  p_hashChain : option bool;
  p_hashAlgorithm : option HashAlgorithm;
  p_serviceName : option string;
  p_serviceVersion : option string;
  p_environment : option string;
  p_retentionDays : option Z;
  p_enableSignatures : option bool;
  p_signingKey : option string;
  p_sinks : option (list AuditSink);
  p_includeStackTraces : option bool;
  p_autoDelete : option bool;
  p_bufferSize : option Z;
  p_flushInterval : option Z;
  p_store : option StoreConfig
}.

Definition empty_partial : PartialAuditConfig :=
  mkPartial None None None None None None None None None None None None None
            None None.

(** The variables of [process.env] that the defaults read. *)
Record ProcessEnv : Type := mkEnv {
  SERVICE_NAME : option string;
  SERVICE_VERSION : option string;
  NODE_ENV : option string
}.

Definition defaultAuditConfig (env : ProcessEnv) : AuditConfig :=
  {| enableStructured := true;
     hashChain := false;
     hashAlgorithm := sha256;
     serviceName := nullish (SERVICE_NAME env) "unknown";
     serviceVersion := nullish (SERVICE_VERSION env) "0.0.0";
     environment := nullish (NODE_ENV env) "development";
     retentionDays := 365;
     enableSignatures := false;
     signingKey := None;
     sinks := [sink_console];
     includeStackTraces :=
       match NODE_ENV env with
       | Some e => negb (String.eqb e "production")
       | None => true
       end;
     autoDelete := false;
     bufferSize := 100;
     flushInterval := 1000;
     store := None |}.

(** [{...base, ...over}] for a full [base]. *)
Definition spread_config (base : AuditConfig) (over : PartialAuditConfig)
  : AuditConfig :=
  {| enableStructured :=
       spread (enableStructured base) (p_enableStructured over);
     hashChain := spread (hashChain base) (p_hashChain over);
     hashAlgorithm := spread (hashAlgorithm base) (p_hashAlgorithm over);
     serviceName := spread (serviceName base) (p_serviceName over);
     serviceVersion := spread (serviceVersion base) (p_serviceVersion over);
     environment := spread (environment base) (p_environment over);
     retentionDays := spread (retentionDays base) (p_retentionDays over);
     enableSignatures :=
       spread (enableSignatures base) (p_enableSignatures over);
     signingKey := spread_opt (signingKey base) (p_signingKey over);
     sinks := spread (sinks base) (p_sinks over);
     includeStackTraces :=
       spread (includeStackTraces base) (p_includeStackTraces over);
     autoDelete := spread (autoDelete base) (p_autoDelete over);
     bufferSize := spread (bufferSize base) (p_bufferSize over);
     flushInterval := spread (flushInterval base) (p_flushInterval over);
     store := spread_opt (store base) (p_store over) |}.

(** A full configuration seen as a partial one (every property present). *)
Definition as_partial (c : AuditConfig) : PartialAuditConfig :=
  {| p_enableStructured := Some (enableStructured c);
     p_hashChain := Some (hashChain c);
     p_hashAlgorithm := Some (hashAlgorithm c);
     p_serviceName := Some (serviceName c);
     p_serviceVersion := Some (serviceVersion c);
     p_environment := Some (environment c);
     p_retentionDays := Some (retentionDays c);
     p_enableSignatures := Some (enableSignatures c);
     p_signingKey := signingKey c;
     p_sinks := Some (sinks c);
     p_includeStackTraces := Some (includeStackTraces c);
     p_autoDelete := Some (autoDelete c);
     p_bufferSize := Some (bufferSize c);
     p_flushInterval := Some (flushInterval c);
     p_store := store c |}.

Definition mergeAuditConfig (env : ProcessEnv) (config : PartialAuditConfig)
  : AuditConfig :=
  spread_config (defaultAuditConfig env) config.

(** ** chain.ts *)

(** The object that [computeHash] serialises. *)
Record HashData : Type := mkHashData {
  data_id : string;
  data_timestamp : Z;
  data_event : AuditEvent;
  data_previousHash : string
}.

Record HashChain : Type := mkHashChain {
  algorithm : HashAlgorithm;
  chain_previousHash : string;
  chain_sequence : Z
}.

Record VerifyResult : Type := mkVerify {
  valid : bool;
  brokenAt : option Z;
  verify_error : option string
}.

Definition verify_ok : VerifyResult := mkVerify true None None.

Definition verify_broken (i : Z) (msg : string) : VerifyResult :=
  mkVerify false (Some i) (Some msg).

Section Chain.

(** [createHash(algorithm).update(s).digest("hex")] *)
Variable digest : HashAlgorithm -> string -> string.
(** [JSON.stringify] of the object built by [computeHash]. *)
Variable JSON_stringify : HashData -> string.

Definition computeGenesisHash (alg : HashAlgorithm) : string :=
  digest alg "GENESIS".

(** [new HashChain(algorithm)] *)
Definition new_HashChain (alg : HashAlgorithm) : HashChain :=
  mkHashChain alg (computeGenesisHash alg) 0.

Definition computeHash (alg : HashAlgorithm) (entry : AuditEntry)
           (previousHash : string) : string :=
  digest alg
    (JSON_stringify
       {| data_id := id entry;
          data_timestamp := timestamp entry;
          data_event := event entry;
          data_previousHash := previousHash |}).

(** [addEntry]: the chain entry returned and the chain afterwards. *)
Definition addEntry (c : HashChain) (entry : AuditEntry)
  : ChainEntry * HashChain :=
  let h := computeHash (algorithm c) entry (chain_previousHash c) in
  ({| hash := h;
      previousHash := chain_previousHash c;
      sequence := chain_sequence c |},
   mkHashChain (algorithm c) h (chain_sequence c + 1)).

Definition verifyEntry (c : HashChain) (entry : AuditEntry)
           (expectedPreviousHash : string) : bool :=
  match chain entry with
  | None => false
  | Some ch =>
      String.eqb (computeHash (algorithm c) entry expectedPreviousHash)
                 (hash ch)
  end.

(** [a.chain?.sequence ?? 0] *)
Definition sequence_or_0 (e : AuditEntry) : Z :=
  match chain e with Some ch => sequence ch | None => 0 end.

Definition by_sequence (a b : AuditEntry) : Z :=
  sequence_or_0 a - sequence_or_0 b.

(** The loop of [verifyChain] from index [i] on: [previous] is
    [sorted[i - 1]] and [rest] is [sorted[i..]]. *)
Fixpoint verify_links (i : Z) (previous : AuditEntry)
         (rest : list AuditEntry) : VerifyResult :=
  match rest with
  | [] => verify_ok
  | current :: rest' =>
      match chain current, chain previous with
      | Some cur, Some prev =>
          if negb (String.eqb (previousHash cur) (hash prev)) then
            verify_broken i
              ("Chain broken: expected previousHash " ++ hash prev
               ++ ", got " ++ previousHash cur)%string
          else if negb (sequence cur =? sequence prev + 1) then
            verify_broken i
              ("Sequence gap: expected "
               ++ number_to_string (sequence prev + 1)
               ++ ", got " ++ number_to_string (sequence cur))%string
          else verify_links (i + 1) current rest'
      | _, _ => verify_broken i "Missing chain data"
      end
  end.

Definition verifyChain (c : HashChain) (es : list AuditEntry)
  : VerifyResult :=
  match es with
  | [] => verify_ok
  | _ :: _ =>
      match Array_sort by_sequence es with
      | [] => verify_ok
      | first :: rest =>
          match chain first with
          | None => verify_broken 0 "Missing chain data"
          | Some fc =>
              let genesisHash := computeGenesisHash (algorithm c) in
              if (sequence fc =? 0)
                 && negb (String.eqb (previousHash fc) genesisHash)
              then verify_broken 0 "Invalid genesis hash"
              else verify_links 1 first rest
          end
      end
  end.

Definition getState (c : HashChain) : string * Z :=
  (chain_previousHash c, chain_sequence c).

Definition restoreState (c : HashChain) (previousHash : string)
           (sequence : Z) : HashChain :=
  mkHashChain (algorithm c) previousHash sequence.

(** Successive [entry.chain = chain.addEntry(entry)] on one chain instance,
    as [AuditLogger.log] does for each entry it creates: the entries with
    their linkage, in write order, and the chain afterwards. *)
Fixpoint chain_entries (c : HashChain) (raw : list AuditEntry)
  : list AuditEntry * HashChain :=
  match raw with
  | [] => ([], c)
  | e :: raw' =>
      let (ce, c1) := addEntry c e in
      let (out, c2) := chain_entries c1 raw' in
      (set_chain e ce :: out, c2)
  end.

(** [entries[i].event = ev] on the entry at index [i] of [es], the stored
    hash left as it is. *)
Definition set_event (e : AuditEntry) (ev : AuditEvent) : AuditEntry :=
  mkEntry (id e) (timestamp e) ev (service e) (chain e) (signature e).

Fixpoint tamper_event (i : nat) (ev : AuditEvent) (es : list AuditEntry)
  : list AuditEntry :=
  match es, i with
  | [], _ => []
  | e :: es', O => set_event e ev :: es'
  | e :: es', S i' => e :: tamper_event i' ev es'
  end.

End Chain.

(** ** store.ts: MemoryStore *)

Record MemoryStore : Type := mkMemoryStore {
  mem_entries : list AuditEntry;
  maxSize : Z
}.

(** [new MemoryStore(maxSize)], [maxSize] defaulting to 10000. *)
Definition new_MemoryStore (size : option Z) : MemoryStore :=
  mkMemoryStore [] (nullish size 10000).

Definition MemoryStore_write (m : MemoryStore) (entry : AuditEntry)
  : MemoryStore :=
  let pushed := mem_entries m ++ [entry] in
  if Array_length pushed >? maxSize m
  then mkMemoryStore (Array_slice_from pushed (- maxSize m)) (maxSize m)
  else mkMemoryStore pushed (maxSize m).

(** [if (allowed?.length) results = results.filter(keep allowed)] *)
Definition filter_if_nonempty {A : Type} (allowed : option (list A))
           (keep : list A -> AuditEntry -> bool) (results : list AuditEntry)
  : list AuditEntry :=
  match allowed with
  | Some (x :: l) => filter (keep (x :: l)) results
  | _ => results
  end.

(** [v && allowed.includes(v)] for an optional string [v]. *)
Definition truthy_and_included (allowed : list string) (v : option string)
  : bool :=
  match v with
  | Some s => truthy_string s && Array_includes String.eqb allowed s
  | None => false
  end.

Definition by_timestamp (sortOrder : SortOrder) (a b : AuditEntry) : Z :=
  let diff := timestamp a - timestamp b in
  match sortOrder with asc => diff | desc => - diff end.

(** The filters of [query], applied in the order of the source. *)
Definition apply_filters (query : AuditQuery) (all : list AuditEntry)
  : list AuditEntry :=
  let results := all in
  let results :=
    match timeRange query with
    | Some {| range_start := Some start |} =>
        filter (fun e => timestamp e >=? start) results
    | _ => results
    end in
  let results :=
    match timeRange query with
    | Some {| range_end := Some end_ |} =>
        filter (fun e => timestamp e <=? end_) results
    | _ => results
    end in
  let results :=
    filter_if_nonempty (eventTypes query)
      (fun l e => Array_includes EventType_eqb l (type (event e))) results in
  let results :=
    filter_if_nonempty (actions query)
      (fun l e => Array_includes String.eqb l (action (event e))) results in
  let results :=
    filter_if_nonempty (outcomes query)
      (fun l e => Array_includes Outcome_eqb l (outcome (event e))) results in
  let results :=
    filter_if_nonempty (actorIds query)
      (fun l e =>
         truthy_and_included l (actorId (event e))
         || truthy_and_included l
              (match actor (event e) with
               | Some a => actor_id a
               | None => None
               end)) results in
  let results :=
    filter_if_nonempty (resourceTypes query)
      (fun l e =>
         truthy_and_included l (resourceType (event e))
         || truthy_and_included l
              (match resource (event e) with
               | Some r => resource_type r
               | None => None
               end)) results in
  let results :=
    filter_if_nonempty (resourceIds query)
      (fun l e =>
         truthy_and_included l (resourceId (event e))
         || truthy_and_included l
              (match resource (event e) with
               | Some r => resource_id r
               | None => None
               end)) results in
  let results :=
    filter_if_nonempty (q_tags query)
      (fun l e =>
         match tags (event e) with
         | Some ts => existsb (fun t => Array_includes String.eqb l t) ts
         | None => false
         end) results in
  match search query with
  | Some s =>
      if truthy_string s then
        let searchLower := toLowerCase s in
        filter
          (fun e =>
             match description (event e) with
             | Some d => String_includes (toLowerCase d) searchLower
             | None => false
             end
             || String_includes (toLowerCase (action (event e))) searchLower)
          results
      else results
  | None => results
  end.

Definition MemoryStore_query (m : MemoryStore) (query : AuditQuery)
  : AuditQueryResult :=
  let results := apply_filters query (mem_entries m) in
  let sortOrder := nullish (sort query) desc in
  let results := Array_sort (by_timestamp sortOrder) results in
  let total := Array_length results in
  let offset := nullish (offset query) 0 in
  let limit := nullish (limit query) 100 in
  let results := Array_slice results offset (offset + limit) in
  {| entries := results;
     total := total;
     hasMore := offset + Array_length results <? total |}.

Definition MemoryStore_close (m : MemoryStore) : MemoryStore :=
  mkMemoryStore [] (maxSize m).

Definition getAll (m : MemoryStore) : list AuditEntry := mem_entries m.

Definition clear (m : MemoryStore) : MemoryStore :=
  mkMemoryStore [] (maxSize m).

(** [n] successive writes. *)
Definition write_all (m : MemoryStore) (es : list AuditEntry) : MemoryStore :=
  fold_left MemoryStore_write es m.

(** The interface [AuditStore]: each method is asynchronous and may reject. *)
Class AuditStore (S : Type) : Type := {
  store_write : S -> AuditEntry -> S * Settled unit;
  store_query : S -> AuditQuery -> S * Settled AuditQueryResult;
  store_close : S -> S * Settled unit
}.

#[export] Instance MemoryStore_AuditStore : AuditStore MemoryStore := {
  store_write m entry := (MemoryStore_write m entry, Fulfilled tt);
  store_query m query := (m, Fulfilled (MemoryStore_query m query));
  store_close m := (MemoryStore_close m, Fulfilled tt)
}.

(** ** store.ts: SinkWriter *)

(** What a sink does to the outside: one operation per delivery. *)
Inductive IOEvent : Type :=
| io_console_log (line : string)
| io_appendFile (path data : string)
| io_fetch (url : string) (headers : list (string * string)) (body : string)
| io_handler (handler : string) (entry : AuditEntry).

(** The operations started so far, oldest first. *)
Definition Trace : Type := list IOEvent.

(** [{...base, ...over}] on string-keyed objects. *)
Fixpoint object_set (k v : string) (o : list (string * string))
  : list (string * string) :=
  match o with
  | [] => [(k, v)]
  | (k', v') :: o' =>
      if String.eqb k k' then (k', v) :: o' else (k', v') :: object_set k v o'
  end.

Definition object_spread (base over : list (string * string))
  : list (string * string) :=
  fold_left (fun o kv => object_set (fst kv) (snd kv) o) over base.

Record SinkWriter : Type := mkSinkWriter { sw_sinks : list AuditSink }.

Section Sinks.

(** [JSON.stringify(entry)] *)
Variable JSON_stringify_entry : AuditEntry -> string.
(** How an operation settles, given the operations started before it: the
    file system, the network, the console and the handlers of the caller
    may each throw or reject. *)
Variable io_outcome : Trace -> IOEvent -> Settled unit.

Definition perform (ev : IOEvent) (t : Trace) : Trace * Settled unit :=
  (t ++ [ev], io_outcome t ev).

(** The operation by which [writeToSink] delivers [entry] to [sink]. *)
Definition delivery (sink : AuditSink) (entry : AuditEntry) : IOEvent :=
  match sink with
  | sink_console => io_console_log (JSON_stringify_entry entry)
  | sink_file path _ =>
      io_appendFile path
        (JSON_stringify_entry entry ++ String "010"%char EmptyString)%string
  | sink_webhook url headers =>
      io_fetch url
        (object_spread [("Content-Type", "application/json")]
                       (nullish headers []))
        (JSON_stringify_entry entry)
  | sink_custom handler => io_handler handler entry
  end.

(** [writeToSink]: an [async] method, so whatever the operation throws or
    rejects with is the rejection of the promise returned. *)
Definition writeToSink (sink : AuditSink) (entry : AuditEntry) (t : Trace)
  : Trace * Settled unit :=
  perform (delivery sink entry) t.

(** [this.sinks.map((sink) => this.writeToSink(sink, entry))] *)
Fixpoint start_writes (sinks : list AuditSink) (entry : AuditEntry)
         (t : Trace) : Trace * list (Settled unit) :=
  match sinks with
  | [] => (t, [])
  | sink :: sinks' =>
      let (t1, p) := writeToSink sink entry t in
      let (t2, ps) := start_writes sinks' entry t1 in
      (t2, p :: ps)
  end.

Definition SinkWriter_write (w : SinkWriter) (entry : AuditEntry)
           (t : Trace) : Trace * Settled unit :=
  let (t', promises) := start_writes (sw_sinks w) entry t in
  match Promise_allSettled promises with
  | Fulfilled _ => (t', Fulfilled tt)
  | Rejected r => (t', Rejected r)
  end.

End Sinks.

(** ** logger.ts *)

(** An [async] method over a state [St]: the state afterwards and the way the
    returned promise settles.  [await] of a rejected promise rejects the
    method. *)
Definition Async (St A : Type) : Type := St -> St * Settled A.

Definition resolve {St A : Type} (a : A) : Async St A :=
  fun s => (s, Fulfilled a).

Definition await {St A B : Type} (p : Async St A) (k : A -> Async St B)
  : Async St B :=
  fun s =>
    match p s with
    | (s', Fulfilled a) => k a s'
    | (s', Rejected r) => (s', Rejected r)
    end.

Notation "'let_await' x ':=' p 'in' k" :=
  (await p (fun x => k))
    (at level 10, x name, p at level 100, k at level 200,
     only parsing).

Record AuditLogger (S : Type) : Type := mkLogger {
  lg_config : AuditConfig;
  lg_chain : option HashChain;
  lg_store : S;
  lg_sinkWriter : SinkWriter
}.
Arguments mkLogger {S}.
Arguments lg_config {S}.
Arguments lg_chain {S}.
Arguments lg_store {S}.
Arguments lg_sinkWriter {S}.

(** [{...a, ...b}] on partial configurations. *)
Definition spread_partial (a b : PartialAuditConfig) : PartialAuditConfig :=
  {| p_enableStructured :=
       spread_opt (p_enableStructured a) (p_enableStructured b);
     p_hashChain := spread_opt (p_hashChain a) (p_hashChain b);
     p_hashAlgorithm := spread_opt (p_hashAlgorithm a) (p_hashAlgorithm b);
     p_serviceName := spread_opt (p_serviceName a) (p_serviceName b);
     p_serviceVersion := spread_opt (p_serviceVersion a) (p_serviceVersion b);
     p_environment := spread_opt (p_environment a) (p_environment b);
     p_retentionDays := spread_opt (p_retentionDays a) (p_retentionDays b);
     p_enableSignatures :=
       spread_opt (p_enableSignatures a) (p_enableSignatures b);
     p_signingKey := spread_opt (p_signingKey a) (p_signingKey b);
     p_sinks := spread_opt (p_sinks a) (p_sinks b);
     p_includeStackTraces :=
       spread_opt (p_includeStackTraces a) (p_includeStackTraces b);
     p_autoDelete := spread_opt (p_autoDelete a) (p_autoDelete b);
     p_bufferSize := spread_opt (p_bufferSize a) (p_bufferSize b);
     p_flushInterval := spread_opt (p_flushInterval a) (p_flushInterval b);
     p_store := spread_opt (p_store a) (p_store b) |}.

(** The event of the entry that [log] builds: [{...event, actor, resource}]
    with the two objects taken from the event or built from the shorthand
    properties. *)
Definition normalize_event (ev : AuditEvent) : AuditEvent :=
  {| type := type ev;
     action := action ev;
     outcome := outcome ev;
     description := description ev;
     actor :=
       Some (nullish (actor ev)
               {| actor_id := actorId ev;
                  actor_type := actorType ev;
                  actor_name := None;
                  actor_ip := actorIp ev;
                  actor_userAgent := None;
                  actor_sessionId := None;
                  actor_metadata := None |});
     actorId := actorId ev;
     actorType := actorType ev;
     actorIp := actorIp ev;
     resource :=
       Some (nullish (resource ev)
               {| resource_id := resourceId ev;
                  resource_type := resourceType ev;
                  resource_name := None;
                  resource_path := None;
                  resource_metadata := None |});
     resourceId := resourceId ev;
     resourceType := resourceType ev;
     trace := trace ev;
     requestId := requestId ev;
     data := data ev;
     tags := tags ev;
     durationMs := durationMs ev;
     error := error ev |}.

(** What [createStore] builds.  The file store works on the file system and
    is represented by the arguments of its constructor. *)
Inductive CreatedStore : Type :=
| created_MemoryStore (m : MemoryStore)
| created_FileStore (filePath : string) (bufferSize flushInterval : Z).

(** [createStore]: the store, or the message of the error thrown. *)
Definition createStore (config : AuditConfig) : string + CreatedStore :=
  match store config with
  | None => inr (created_MemoryStore (new_MemoryStore None))
  | Some storeConfig =>
      match store_type storeConfig with
      | store_memory =>
          inr (created_MemoryStore
                 (new_MemoryStore (store_maxSize storeConfig)))
      | store_file =>
          match store_filePath storeConfig with
          | Some (String c p) =>
              inr (created_FileStore
                     (String c p)
                     (nullish (store_bufferSize storeConfig)
                              (bufferSize config))
                     (nullish (store_flushInterval storeConfig)
                              (flushInterval config)))
          | _ => inl "File store requires filePath configuration"
          end
      end
  end.

Section Logger.

Variable env : ProcessEnv.
Variable digest : HashAlgorithm -> string -> string.
Variable JSON_stringify : HashData -> string.
Variable JSON_stringify_entry : AuditEntry -> string.
Variable io_outcome : Trace -> IOEvent -> Settled unit.

Context {S : Type} {store_impl : AuditStore S}.

(** The constructor followed by [setStore(store)]: the configuration
    merged over the defaults, a chain at genesis when chaining is enabled,
    the sink writer over the configured sinks. *)
Definition new_AuditLogger (config : PartialAuditConfig) (store : S)
  : AuditLogger S :=
  let merged := mergeAuditConfig env config in
  {| lg_config := merged;
     lg_chain :=
       if hashChain merged
       then Some (new_HashChain digest (hashAlgorithm merged))
       else None;
     lg_store := store;
     lg_sinkWriter := mkSinkWriter (sinks merged) |}.

(** The state that [log] works on: the logger and the outside. *)
Definition LogState : Type := AuditLogger S * Trace.

(** [if (this.chain) entry.chain = this.chain.addEntry(entry)] *)
Definition attach_chain (entry : AuditEntry) : Async LogState AuditEntry :=
  fun '(lg, t) =>
    match lg_chain lg with
    | Some c =>
        let (ce, c') := addEntry digest JSON_stringify c entry in
        ((mkLogger (lg_config lg) (Some c') (lg_store lg) (lg_sinkWriter lg),
          t),
         Fulfilled (set_chain entry ce))
    | None => ((lg, t), Fulfilled entry)
    end.

(** [this.store.write(entry)] *)
Definition write_store (entry : AuditEntry) : Async LogState unit :=
  fun '(lg, t) =>
    let (s', r) := store_write (lg_store lg) entry in
    ((mkLogger (lg_config lg) (lg_chain lg) s' (lg_sinkWriter lg), t), r).

(** [this.sinkWriter.write(entry)] *)
Definition write_sinks (entry : AuditEntry) : Async LogState unit :=
  fun '(lg, t) =>
    let (t', r) :=
      SinkWriter_write JSON_stringify_entry io_outcome
                       (lg_sinkWriter lg) entry t in
    ((lg, t'), r).

(** [log(event)]; [uuid] is what [randomUUID()] returns and [now] the
    [new Date()] of the call. *)
Definition log (uuid : string) (now : Z) (event : AuditEvent)
  : Async LogState AuditEntry :=
  fun '(lg, t) =>
    let entry :=
      {| id := uuid;
         timestamp := now;
         event := normalize_event event;
         service :=
           Some {| service_name := serviceName (lg_config lg);
                   service_version := serviceVersion (lg_config lg);
                   service_environment := environment (lg_config lg) |};
         chain := None;
         signature := None |} in
    (let_await entry := attach_chain entry in
     let_await _ := write_store entry in
     let_await _ := write_sinks entry in
     resolve entry) (lg, t).

(** [query(query)] *)
Definition logger_query (query : AuditQuery)
  : Async (AuditLogger S) AuditQueryResult :=
  fun lg =>
    let (s', r) := store_query (lg_store lg) query in
    (mkLogger (lg_config lg) (lg_chain lg) s' (lg_sinkWriter lg), r).

(** [AuditLogger.verifyChain(entries)] *)
Definition logger_verifyChain (lg : AuditLogger S) (es : list AuditEntry)
  : VerifyResult :=
  match lg_chain lg with
  | None => verify_ok
  | Some c => verifyChain digest c es
  end.

Definition setConfig (lg : AuditLogger S) (config : PartialAuditConfig)
  : AuditLogger S :=
  let merged :=
    mergeAuditConfig env (spread_partial (as_partial (lg_config lg)) config) in
  let chain' :=
    match p_hashChain config with
    | Some flag =>
        if flag then Some (new_HashChain digest (hashAlgorithm merged))
        else None
    | None => lg_chain lg
    end in
  let sinkWriter' :=
    match p_sinks config with
    | Some sinks => mkSinkWriter sinks
    | None => lg_sinkWriter lg
    end in
  mkLogger merged chain' (lg_store lg) sinkWriter'.

Definition setStore (lg : AuditLogger S) (store : S) : AuditLogger S :=
  mkLogger (lg_config lg) (lg_chain lg) store (lg_sinkWriter lg).

(** [close()] *)
Definition logger_close : Async (AuditLogger S) unit :=
  fun lg =>
    let (s', r) := store_close (lg_store lg) in
    (mkLogger (lg_config lg) (lg_chain lg) s' (lg_sinkWriter lg), r).

End Logger.

(** ** Vocabulary of the statements *)

(** A list of entries is linked from [(prev, n)]: every entry carries chain
    data, the first one has [previousHash = prev] and [sequence = n], and
    each next one continues from the hash and the sequence of its
    predecessor. *)
Fixpoint linked_from (prev : string) (n : Z) (es : list AuditEntry) : Prop :=
  match es with
  | [] => True
  | e :: es' =>
      exists c, chain e = Some c /\ previousHash c = prev /\ sequence c = n
                /\ linked_from (hash c) (n + 1) es'
  end.

(** Two lists of entries that carry the same chain data, entry by entry. *)
Definition same_chains (es1 es2 : list AuditEntry) : Prop :=
  Forall2 (fun a b => chain a = chain b) es1 es2.

(** The elements of [l] whose index [i] satisfies [lo <= i < hi]. *)
Definition index_range {A : Type} (l : list A) (lo hi : Z) : list A :=
  firstn (Z.to_nat hi - Z.to_nat lo) (skipn (Z.to_nat lo) l).

(** The last [n] elements of [l] (all of [l] when it has fewer). *)
Definition last_n {A : Type} (n : nat) (l : list A) : list A :=
  skipn (List.length l - n) l.

(** What [query] pages through: the stored entries that pass the filters, in
    the order of the sort. *)
Definition full_result (m : MemoryStore) (query : AuditQuery)
  : list AuditEntry :=
  Array_sort (by_timestamp (nullish (sort query) desc))
             (apply_filters query (mem_entries m)).

Definition newest_first (a b : AuditEntry) : Prop :=
  timestamp a >= timestamp b.

(** The pagination contract for one store and one query, with [O] and [L]
    the offset and the limit of the query (0 and 100 when absent): the full
    result is the filtered entries, newest first by default; the entries
    returned are those at the indices [O <= i < O + L] of the full result;
    [total] counts the filtered entries; [hasMore] tells whether
    [O + L < total]. *)
Definition pagination_contract (m : MemoryStore) (query : AuditQuery) : Prop :=
  let O := nullish (offset query) 0 in
  let L := nullish (limit query) 100 in
  let full := full_result m query in
  let r := MemoryStore_query m query in
  Permutation (apply_filters query (mem_entries m)) full
  /\ (sort query = None -> StronglySorted newest_first full)
  /\ entries r = index_range full O (O + L)
  /\ total r = Array_length (apply_filters query (mem_entries m))
  /\ (hasMore r = true <-> O + L < total r).

(** The reading of [setConfig] by which the chain follows the value of the
    chaining flag: the chain is kept, state included, when the flag has the
    same value after the call as before, and the sink writer is kept when no
    sinks are supplied. *)
Definition chain_follows_flag_value
           (env : ProcessEnv) (digest : HashAlgorithm -> string -> string)
           {S : Type} (lg : AuditLogger S) (config : PartialAuditConfig)
  : Prop :=
  let lg' := setConfig env digest lg config in
  (hashChain (lg_config lg') = hashChain (lg_config lg) ->
   lg_chain lg' = lg_chain lg)
  /\ (p_sinks config = None -> lg_sinkWriter lg' = lg_sinkWriter lg).

(** Concrete stand-ins for what Node provides, to run the definitions on
    examples. *)
Module Fixture.

Definition digest (alg : HashAlgorithm) (s : string) : string :=
  (match alg with sha256 => "sha256(" | sha512 => "sha512(" end
   ++ s ++ ")")%string.

Definition JSON_stringify (d : HashData) : string :=
  (data_id d ++ "|" ++ number_to_string (data_timestamp d) ++ "|"
   ++ action (data_event d) ++ "|" ++ data_previousHash d)%string.

Definition JSON_stringify_entry (e : AuditEntry) : string :=
  (id e ++ "|" ++ action (event e))%string.

(** Every custom handler named ["boom"] throws and every file append
    fails; the rest succeeds. *)
Definition io_outcome (t : Trace) (ev : IOEvent) : Settled unit :=
  match ev with
  | io_handler "boom" _ => Rejected "handler failed"
  | io_appendFile _ _ => Rejected "EACCES"
  | _ => Fulfilled tt
  end.

Definition env : ProcessEnv := mkEnv None None None.

Definition ev (act : string) : AuditEvent :=
  {| type := AUTH; action := act; outcome := SUCCESS;
     description := None; actor := None; actorId := None;
     actorType := None; actorIp := None; resource := None;
     resourceId := None; resourceType := None; trace := None;
     requestId := None; data := None; tags := None; durationMs := None;
     error := None |}.

(** An entry as [log] builds it before the chain is attached. *)
Definition raw (uuid : string) (now : Z) (act : string) : AuditEntry :=
  {| id := uuid; timestamp := now; event := normalize_event (ev act);
     service := None; chain := None; signature := None |}.

Definition three_raw : list AuditEntry :=
  [raw "a" 10 "login"; raw "b" 20 "read"; raw "c" 30 "logout"].

(** The three entries as one sha256 chain links them. *)
Definition three : list AuditEntry :=
  fst (chain_entries digest JSON_stringify (new_HashChain digest sha256)
                     three_raw).

Definition store3 : MemoryStore := write_all (new_MemoryStore None) three.

(** The query with no filter, [limit] and [offset] as given. *)
Definition page (limit offset : option Z) : AuditQuery :=
  mkQuery None None None None None None None None None limit offset None.

Definition partial (flag : option bool) (sinks : option (list AuditSink))
  : PartialAuditConfig :=
  mkPartial None flag None None None None None None None sinks None None
            None None None.

Definition failing_sinks : list AuditSink :=
  [sink_custom "boom"; sink_console; sink_file "/audit.jsonl" None].

(** A logger with chaining on, three sinks of which two fail, and a memory
    store. *)
Definition logger : AuditLogger MemoryStore :=
  new_AuditLogger env digest (partial (Some true) (Some failing_sinks))
                  (new_MemoryStore None).

Definition log_event (uuid : string) (now : Z) (e : AuditEvent)
  : Async (AuditLogger MemoryStore * Trace) AuditEntry :=
  log digest JSON_stringify JSON_stringify_entry io_outcome uuid now e.

(** The logger after one event was logged. *)
Definition logger_after_one : AuditLogger MemoryStore :=
  fst (fst (log_event "a" 10 (ev "login") (logger, []))).

End Fixture.

(** ** More of the audit code *)

(** *** JavaScript helpers on strings *)

(** [parts.join(sep)] *)
Fixpoint Array_join (parts : list string) (sep : string) : string :=
  match parts with
  | [] => EmptyString
  | [p] => p
  | p :: parts' => (p ++ sep ++ Array_join parts' sep)%string
  end.

Definition newline : string := String "010"%char EmptyString.

Definition double_quote : ascii := "034"%char.

(** The ASCII white space and line terminators that [trim] removes. *)
Definition is_space (c : ascii) : bool :=
  let n := nat_of_ascii c in
  ((9 <=? n)%nat && (n <=? 13)%nat) || (n =? 32)%nat.

Fixpoint trimStart (s : string) : string :=
  match s with
  | EmptyString => EmptyString
  | String c s' => if is_space c then trimStart s' else s
  end.

(** [s.trimEnd()]: a character stays when something that is not white space
    follows it or it is not white space itself. *)
Fixpoint trimEnd (s : string) : string :=
  match s with
  | EmptyString => EmptyString
  | String c s' =>
      match trimEnd s' with
      | EmptyString => if is_space c then EmptyString else String c EmptyString
      | rest => String c rest
      end
  end.

(** [s.trim()] *)
Definition String_trim (s : string) : string := trimEnd (trimStart s).

(** [s.split(sep)] for a separator of one character: the pieces between the
    occurrences of [sep], one more than there are occurrences. *)
Fixpoint String_split (s : string) (sep : ascii) : list string :=
  match s with
  | EmptyString => [EmptyString]
  | String c s' =>
      if Ascii.eqb c sep then EmptyString :: String_split s' sep
      else
        match String_split s' sep with
        | [] => [String c EmptyString]
        | piece :: pieces => String c piece :: pieces
        end
  end.

(** [String(v).replace(...)] of the CSV export: every double quote of the
    value is replaced by two. *)
Fixpoint double_quotes (s : string) : string :=
  match s with
  | EmptyString => EmptyString
  | String c s' =>
      if Ascii.eqb c double_quote
      then String double_quote (String double_quote (double_quotes s'))
      else String c (double_quotes s')
  end.

(** *** config.ts: compliance presets *)

Inductive Compliance : Type := SOC2 | HIPAA | PCI_DSS | GDPR | FEDRAMP.

(** A preset: the five properties that every preset sets. *)
Definition preset (chaining : bool) (alg : HashAlgorithm) (days : Z)
           (signatures autoDel : bool) : PartialAuditConfig :=
  {| p_enableStructured := None;
     p_hashChain := Some chaining;
     p_hashAlgorithm := Some alg;
     p_serviceName := None;
     p_serviceVersion := None;
     p_environment := None;
     p_retentionDays := Some days;
     p_enableSignatures := Some signatures;
     p_signingKey := None;
     p_sinks := None;
     p_includeStackTraces := None;
     p_autoDelete := Some autoDel;
     p_bufferSize := None;
     p_flushInterval := None;
     p_store := None |}.

Definition compliancePresets (c : Compliance) : PartialAuditConfig :=
  match c with
  | SOC2 => preset true sha256 365 false false
  | HIPAA => preset true sha512 (365 * 6) true false
  | PCI_DSS => preset true sha256 365 false false
  | GDPR => preset true sha256 90 false true
  | FEDRAMP => preset true sha512 (365 * 3) true false
  end.

(** [{...defaultAuditConfig, ...compliancePresets[compliance], ...overrides}] *)
Definition withCompliance (env : ProcessEnv) (compliance : Compliance)
           (overrides : PartialAuditConfig) : AuditConfig :=
  spread_config
    (spread_config (defaultAuditConfig env) (compliancePresets compliance))
    overrides.

(** *** logger.ts: the shorthands *)

(** [Partial<Omit<AuditEvent, "type" | "action" | "outcome">>]; the [data]
    of [failure] has no [error] either. *)
Record EventData : Type := mkEventData {
  d_description : option string;
  d_actor : option AuditActor;
  d_actorId : option string;
  d_actorType : option string;
  d_actorIp : option string;
  d_resource : option AuditResource;
  d_resourceId : option string;
  d_resourceType : option string;
  d_trace : option TraceContext;
  d_requestId : option string;
  d_data : option JsRecord;
  d_tags : option (list string);
  d_durationMs : option Z;
  d_error : option ErrorInfo
}.

(** [{...base, ...data}] for the optional [data] of a shorthand, here
    [extra]. *)
Definition spread_event (base : AuditEvent) (extra : option EventData)
  : AuditEvent :=
  match extra with
  | None => base
  | Some d =>
      {| type := type base;
         action := action base;
         outcome := outcome base;
         description := spread_opt (description base) (d_description d);
         actor := spread_opt (actor base) (d_actor d);
         actorId := spread_opt (actorId base) (d_actorId d);
         actorType := spread_opt (actorType base) (d_actorType d);
         actorIp := spread_opt (actorIp base) (d_actorIp d);
         resource := spread_opt (resource base) (d_resource d);
         resourceId := spread_opt (resourceId base) (d_resourceId d);
         resourceType := spread_opt (resourceType base) (d_resourceType d);
         trace := spread_opt (trace base) (d_trace d);
         requestId := spread_opt (requestId base) (d_requestId d);
         data := spread_opt (data base) (d_data d);
         tags := spread_opt (tags base) (d_tags d);
         durationMs := spread_opt (durationMs base) (d_durationMs d);
         error := spread_opt (error base) (d_error d) |}
  end.

(** The object literal [{type, action, outcome, error}]. *)
Definition event_literal (ty : EventType) (act : string) (out : Outcome)
           (err : option ErrorInfo) : AuditEvent :=
  {| type := ty; action := act; outcome := out; description := None;
     actor := None; actorId := None; actorType := None; actorIp := None;
     resource := None; resourceId := None; resourceType := None;
     trace := None; requestId := None; data := None; tags := None;
     durationMs := None; error := err |}.

(** The [error] argument of [failure]: an [Error] object, with its message
    and its stack, or a string. *)
Inductive ErrorArg : Type :=
| error_object (message : string) (stack : option string)
| error_string (s : string).

(** The [errorInfo] of [failure]; an empty string is falsy and gives none. *)
Definition errorInfo (includeStack : bool) (err : option ErrorArg)
  : option ErrorInfo :=
  match err with
  | Some (error_object message stack) =>
      Some {| error_code := None;
              error_message := Some message;
              error_stack := if includeStack then stack else None |}
  | Some (error_string s) =>
      if truthy_string s
      then Some {| error_code := None;
                   error_message := Some s;
                   error_stack := None |}
      else None
  | None => None
  end.

Section Shorthands.

Variable env : ProcessEnv.
Variable digest : HashAlgorithm -> string -> string.
Variable JSON_stringify : HashData -> string.
Variable JSON_stringify_entry : AuditEntry -> string.
Variable io_outcome : Trace -> IOEvent -> Settled unit.

Context {S : Type} {store_impl : AuditStore S}.

(** [AuditLogger.withCompliance(compliance, overrides)], the store then set
    by [setStore]. *)
Definition AuditLogger_withCompliance (compliance : Compliance)
           (overrides : PartialAuditConfig) (store : S) : AuditLogger S :=
  new_AuditLogger env digest
                  (as_partial (withCompliance env compliance overrides)) store.

(** [success(type, action, data)] *)
Definition success (uuid : string) (now : Z) (ty : EventType) (act : string)
           (data : option EventData)
  : Async (AuditLogger S * Trace) AuditEntry :=
  log digest JSON_stringify JSON_stringify_entry io_outcome uuid now
      (spread_event (event_literal ty act SUCCESS None) data).

(** [failure(type, action, error, data)] *)
Definition failure (uuid : string) (now : Z) (ty : EventType) (act : string)
           (err : option ErrorArg) (data : option EventData)
  : Async (AuditLogger S * Trace) AuditEntry :=
  fun '(lg, t) =>
    log digest JSON_stringify JSON_stringify_entry io_outcome uuid now
        (spread_event
           (event_literal ty act FAILURE
              (errorInfo (includeStackTraces (lg_config lg)) err))
           data)
        (lg, t).

(** One [log] call after the other; each call with the identifier, the time
    and the event it is given.  The settlements are in the order of the
    calls. *)
Fixpoint log_all (calls : list (string * Z * AuditEvent))
         (st : AuditLogger S * Trace)
  : (AuditLogger S * Trace) * list (Settled AuditEntry) :=
  match calls with
  | [] => (st, [])
  | (uuid, now, event) :: calls' =>
      let (st1, r) :=
        log digest JSON_stringify JSON_stringify_entry io_outcome
            uuid now event st in
      let (st2, rs) := log_all calls' st1 in
      (st2, r :: rs)
  end.

End Shorthands.

(** The entry that [log] builds for a call, before the chain data is
    attached. *)
Definition built_entry (config : AuditConfig)
           (call : string * Z * AuditEvent) : AuditEntry :=
  let '(uuid, now, event) := call in
  {| id := uuid;
     timestamp := now;
     event := normalize_event event;
     service :=
       Some {| service_name := serviceName config;
               service_version := serviceVersion config;
               service_environment := environment config |};
     chain := None;
     signature := None |}.

(** *** store.ts: FileStore *)

(** The fields of a [FileStore]; [fs_flushTimer] tells whether the interval
    timer is set.  The constructor, which creates the directory of the
    file, is not part of the model: the statements are about the methods,
    from any state of the store. *)
Record FileStore : Type := mkFileStore {
  fs_filePath : string;
  fs_buffer : list AuditEntry;
  fs_bufferSize : Z;
  fs_flushInterval : Z;
  fs_flushTimer : bool
}.

Definition set_buffer (f : FileStore) (buffer : list AuditEntry) : FileStore :=
  mkFileStore (fs_filePath f) buffer (fs_bufferSize f) (fs_flushInterval f)
              (fs_flushTimer f).

(** [new MemoryStore(entries.length)], one [write] per entry, [query]: how
    [FileStore.query] answers from the entries it has read. *)
Definition query_entries (es : list AuditEntry) (query : AuditQuery)
  : AuditQueryResult :=
  MemoryStore_query
    (write_all (new_MemoryStore (Some (Array_length es))) es) query.

(** A step in the life of a file store: a [write] of the caller, or the
    interval timer firing, whose callback calls [flush]. *)
Inductive FileStoreOp : Type :=
| op_write (entry : AuditEntry)
| op_timer.

(** The entries of the writes among some steps, in order. *)
Definition written_entries (ops : list FileStoreOp) : list AuditEntry :=
  flat_map (fun op =>
              match op with
              | op_write entry => [entry]
              | op_timer => []
              end) ops.

Section FileStoreMethods.

Variable JSON_stringify_entry : AuditEntry -> string.
(** [JSON.parse(line)] followed by the conversion of [timestamp] to a
    [Date]; [None] when that throws. *)
Variable JSON_parse_entry : string -> option AuditEntry.
Variable io_outcome : Trace -> IOEvent -> Settled unit.
(** What the file system answers for a path after the operations of a
    trace: [None] when [existsSync] is false, else how [readFile] settles. *)
Variable fs_read : Trace -> string -> option (Settled string).

(** [entries.map((e) => JSON.stringify(e)).join("\n") + "\n"] *)
Definition jsonl (es : list AuditEntry) : string :=
  (Array_join (map JSON_stringify_entry es) newline ++ newline)%string.

Definition FileStore_flush : Async (FileStore * Trace) unit :=
  fun '(f, t) =>
    match fs_buffer f with
    | [] => ((f, t), Fulfilled tt)
    | _ :: _ =>
        let entries := fs_buffer f in
        let (t', r) :=
          perform io_outcome (io_appendFile (fs_filePath f) (jsonl entries))
                  t in
        ((set_buffer f [], t'), r)
    end.

Definition FileStore_write (entry : AuditEntry)
  : Async (FileStore * Trace) unit :=
  fun '(f, t) =>
    let f1 := set_buffer f (fs_buffer f ++ [entry]) in
    if Array_length (fs_buffer f1) >=? fs_bufferSize f1
    then FileStore_flush (f1, t)
    else ((f1, t), Fulfilled tt).

(** The lines of the file that parse, in order. *)
Definition read_entries (content : string) : list AuditEntry :=
  let lines :=
    filter truthy_string (String_split (String_trim content) "010"%char) in
  flat_map (fun line =>
              match JSON_parse_entry line with
              | Some entry => [entry]
              | None => []
              end) lines.

Definition FileStore_query (query : AuditQuery)
  : Async (FileStore * Trace) AuditQueryResult :=
  let_await _ := FileStore_flush in
  fun '(f, t) =>
    match fs_read t (fs_filePath f) with
    | None => ((f, t), Fulfilled (query_entries [] query))
    | Some (Rejected reason) => ((f, t), Rejected reason)
    | Some (Fulfilled content) =>
        ((f, t), Fulfilled (query_entries (read_entries content) query))
    end.

Definition FileStore_close : Async (FileStore * Trace) unit :=
  fun '(f, t) =>
    FileStore_flush
      (mkFileStore (fs_filePath f) (fs_buffer f) (fs_bufferSize f)
                   (fs_flushInterval f) false,
       t).

(** What happens to a file store between its creation and a [query] or
    [close]: the caller writes, and the interval timer fires, one after the
    other; the settlements are in that order. *)
Fixpoint FileStore_run (ops : list FileStoreOp) (st : FileStore * Trace)
  : (FileStore * Trace) * list (Settled unit) :=
  match ops with
  | [] => (st, [])
  | op :: ops' =>
      let (st1, r) :=
        match op with
        | op_write entry => FileStore_write entry st
        | op_timer => FileStore_flush st
        end in
      let (st2, rs) := FileStore_run ops' st1 in
      (st2, r :: rs)
  end.

End FileStoreMethods.

(** What was handed to [appendFile] for a path in the course of a trace, in
    order. *)
Fixpoint appended (path : string) (t : Trace) : string :=
  match t with
  | [] => EmptyString
  | io_appendFile p chunk :: t' =>
      if String.eqb p path then (chunk ++ appended path t')%string
      else appended path t'
  | _ :: t' => appended path t'
  end.

(** *** store.ts: exportEntries *)

Definition EventType_value (ty : EventType) : string :=
  match ty with
  | AUTH => "auth"
  | AUTHZ => "authz"
  | DATA_ACCESS => "data_access"
  | DATA_MODIFY => "data_modify"
  | CONFIG_CHANGE => "config_change"
  | ADMIN_ACTION => "admin_action"
  | SECURITY_EVENT => "security_event"
  | USER_LIFECYCLE => "user_lifecycle"
  | API_ACCESS => "api_access"
  | SYSTEM => "system"
  | CUSTOM => "custom"
  end.

Definition Outcome_value (o : Outcome) : string :=
  match o with
  | SUCCESS => "success"
  | FAILURE => "failure"
  | PENDING => "pending"
  | UNKNOWN => "unknown"
  end.

Definition csv_headers : list string :=
  ["id"; "timestamp"; "type"; "action"; "outcome"; "actorId"; "resourceId";
   "description"].

(** A value of a row between double quotes, its own double quotes doubled. *)
Definition csv_field (v : string) : string :=
  String double_quote
         (double_quotes v ++ String double_quote EmptyString)%string.

Section ExportEntries.

Variable JSON_stringify_entry : AuditEntry -> string.
(** [JSON.stringify(entries, null, 2)] *)
Variable JSON_stringify_pretty : list AuditEntry -> string.
(** [date.toISOString()] *)
Variable toISOString : Z -> string.
(** How [fs.promises.writeFile(filePath, content)] settles. *)
Variable fs_writeFile : string -> string -> Settled unit.

Definition csv_row (e : AuditEntry) : list string :=
  [id e;
   toISOString (timestamp e);
   EventType_value (type (event e));
   action (event e);
   Outcome_value (outcome (event e));
   nullish (actorId (event e))
           (nullish (match actor (event e) with
                     | Some a => actor_id a
                     | None => None
                     end) "");
   nullish (resourceId (event e))
           (nullish (match resource (event e) with
                     | Some r => resource_id r
                     | None => None
                     end) "");
   nullish (description (event e)) ""].

(** The content that [exportEntries] writes for a format, or the message of
    the error it throws. *)
Definition export_content (es : list AuditEntry) (format : string)
  : string + string :=
  if String.eqb format "json" then inr (JSON_stringify_pretty es)
  else if String.eqb format "jsonl" then inr (jsonl JSON_stringify_entry es)
  else if String.eqb format "csv" then
    inr (Array_join csv_headers ","
         ++ newline
         ++ Array_join
              (map (fun r => Array_join (map csv_field r) ",")
                   (map csv_row es))
              newline)%string
  else inl ("Unknown export format: " ++ format)%string.

(** [exportEntries]: the file written with its content, if any, and how the
    promise settles. *)
Definition exportEntries (es : list AuditEntry) (filePath format : string)
  : option (string * string) * Settled unit :=
  match export_content es format with
  | inl message => (None, Rejected message)
  | inr content => (Some (filePath, content), fs_writeFile filePath content)
  end.

(** [AuditLogger.export(filePath, entries, format)], the format defaulting
    to JSON. *)
Definition logger_export (filePath : string) (es : list AuditEntry)
           (format : option string)
  : option (string * string) * Settled unit :=
  exportEntries es filePath (nullish format "json").

End ExportEntries.

(** *** More vocabulary *)

(** [l] without its element at index [i]. *)
Definition remove_at {A : Type} (i : nat) (l : list A) : list A :=
  firstn i l ++ skipn (S i) l.

(** A filter that is absent or empty lets everything through. *)
Definition passes {A : Type} (allowed : option (list A))
           (test : list A -> bool) : bool :=
  match allowed with
  | Some (x :: l) => test (x :: l)
  | _ => true
  end.

(** An entry matches a query when it passes every filter of the query. *)
Definition matches (query : AuditQuery) (e : AuditEntry) : bool :=
  match timeRange query with
  | Some {| range_start := Some start |} => timestamp e >=? start
  | _ => true
  end
  && match timeRange query with
     | Some {| range_end := Some end_ |} => timestamp e <=? end_
     | _ => true
     end
  && passes (eventTypes query)
            (fun l => Array_includes EventType_eqb l (type (event e)))
  && passes (actions query)
            (fun l => Array_includes String.eqb l (action (event e)))
  && passes (outcomes query)
            (fun l => Array_includes Outcome_eqb l (outcome (event e)))
  && passes (actorIds query)
            (fun l =>
               truthy_and_included l (actorId (event e))
               || truthy_and_included l
                    (match actor (event e) with
                     | Some a => actor_id a
                     | None => None
                     end))
  && passes (resourceTypes query)
            (fun l =>
               truthy_and_included l (resourceType (event e))
               || truthy_and_included l
                    (match resource (event e) with
                     | Some r => resource_type r
                     | None => None
                     end))
  && passes (resourceIds query)
            (fun l =>
               truthy_and_included l (resourceId (event e))
               || truthy_and_included l
                    (match resource (event e) with
                     | Some r => resource_id r
                     | None => None
                     end))
  && passes (q_tags query)
            (fun l =>
               match tags (event e) with
               | Some ts => existsb (fun t => Array_includes String.eqb l t) ts
               | None => false
               end)
  && match search query with
     | Some s =>
         if truthy_string s then
           match description (event e) with
           | Some d => String_includes (toLowerCase d) (toLowerCase s)
           | None => false
           end
           || String_includes (toLowerCase (action (event e))) (toLowerCase s)
         else true
     | None => true
     end.

Definition sequence_increases (a b : AuditEntry) : Prop :=
  sequence_or_0 a < sequence_or_0 b.

(** The text of the lines of some entries: each entry serialised and
    followed by a line feed. *)
Fixpoint lines_of (stringify : AuditEntry -> string) (es : list AuditEntry)
  : string :=
  match es with
  | [] => EmptyString
  | e :: es' => (stringify e ++ newline ++ lines_of stringify es')%string
  end.

(** The query [query] with the given [limit] and [offset]. *)
Definition paged (query : AuditQuery) (limit offset : Z) : AuditQuery :=
  mkQuery (timeRange query) (eventTypes query) (actions query)
          (outcomes query) (actorIds query) (resourceTypes query)
          (resourceIds query) (q_tags query) (search query)
          (Some limit) (Some offset) (sort query).

Definition oldest_first (a b : AuditEntry) : Prop :=
  timestamp a <= timestamp b.

(** A string without line feed that neither starts nor ends with white
    space, and so is not empty: what one line of a JSON object is. *)
Fixpoint no_newline (s : string) : bool :=
  match s with
  | EmptyString => true
  | String c s' => negb (Ascii.eqb c "010"%char) && no_newline s'
  end.

Definition one_line (s : string) : Prop :=
  no_newline s = true
  /\ exists c s', s = String c s' /\ is_space c = false
                  /\ trimEnd s = s.

(** More stand-ins for the examples. *)
Module Sample.

(** A store whose [write] always rejects. *)
Inductive BrokenStore : Type := broken_store.

#[global] Instance BrokenStore_AuditStore : AuditStore BrokenStore := {
  store_write s entry := (s, Rejected "disk full");
  store_query s query := (s, Rejected "disk full");
  store_close s := (s, Fulfilled tt)
}.

(** Reading back the lines that [Fixture.JSON_stringify_entry] writes for
    the three sample entries. *)
Definition JSON_parse_entry (line : string) : option AuditEntry :=
  find (fun e => String.eqb (Fixture.JSON_stringify_entry e) line)
       Fixture.three.

(** A file system in which every append succeeds and a file holds what was
    appended to it. *)
Definition io_ok (t : Trace) (ev : IOEvent) : Settled unit := Fulfilled tt.

Definition fs_read (t : Trace) (path : string) : option (Settled string) :=
  match appended path t with
  | EmptyString => None
  | content => Some (Fulfilled content)
  end.

Definition file_store : FileStore :=
  mkFileStore "/audit.jsonl" [] 2 1000 true.

Definition no_filter : AuditQuery := Fixture.page None None.

(** The three sample entries written, the timer firing after the first
    write. *)
Definition three_writes : list FileStoreOp :=
  match Fixture.three with
  | e1 :: rest => op_write e1 :: op_timer :: map op_write rest
  | [] => []
  end.

End Sample.

(** ** Facts about the JavaScript helpers *)

Section SortFacts.

Context {A : Type} (compare : A -> A -> Z).

Lemma sort_insert_Permutation (x : A) (l : list A) :
  Permutation (x :: l) (sort_insert compare x l).
Proof.
  induction l as [|y l IH]; simpl.
  - apply Permutation_refl.
  - destruct (compare x y <=? 0).
    + apply Permutation_refl.
    + eapply perm_trans; [apply perm_swap|]. now apply perm_skip.
Qed.

Lemma Array_sort_is_Permutation (l : list A) :
  Permutation l (Array_sort compare l).
Proof.
  induction l as [|x l IH]; simpl.
  - apply perm_nil.
  - eapply perm_trans; [apply perm_skip, IH|].
    apply sort_insert_Permutation.
Qed.

Lemma Array_sort_length (l : list A) :
  Array_length (Array_sort compare l) = Array_length l.
Proof.
  unfold Array_length. f_equal. symmetry.
  apply Permutation_length, Array_sort_is_Permutation.
Qed.

End SortFacts.

Section SortByKey.

Context {A : Type} (key : A -> Z).

Let compare (a b : A) : Z := key a - key b.

Lemma sort_insert_comm (x y : A) (l : list A) :
  key x <> key y ->
  sort_insert compare x (sort_insert compare y l)
  = sort_insert compare y (sort_insert compare x l).
Proof.
  intros Hxy. induction l as [|z l IH]; simpl; unfold compare in *.
  - destruct (Z.leb_spec (key x - key y) 0), (Z.leb_spec (key y - key x) 0);
      try reflexivity; lia.
  - destruct (Z.leb_spec (key y - key z) 0), (Z.leb_spec (key x - key z) 0);
      simpl;
      repeat match goal with
             | |- context [?a - ?b <=? 0] =>
                 destruct (Z.leb_spec (a - b) 0); simpl
             end;
      try reflexivity; try lia.
    now rewrite IH.
Qed.

(** With pairwise distinct keys the sorted array does not depend on the
    order of the input. *)
Lemma Array_sort_Permutation (l l' : list A) :
  Permutation l l' ->
  NoDup (map key l) ->
  Array_sort compare l = Array_sort compare l'.
Proof.
  induction 1 as [|x l l' Hp IH|x y l|l l' l'' Hp1 IH1 Hp2 IH2];
    intros Hnd; simpl.
  - reflexivity.
  - inversion Hnd; subst. now rewrite IH.
  - inversion Hnd as [|? ? Hin Hnd']; subst.
    apply sort_insert_comm. intros Heq. apply Hin. left. now symmetry.
  - rewrite IH1 by assumption. apply IH2.
    apply (Permutation_NoDup (l := map key l)); [|assumption].
    now apply Permutation_map.
Qed.

End SortByKey.

(** ** The hash chain *)

Section ChainFacts.

Variable digest : HashAlgorithm -> string -> string.
Variable JSON_stringify : HashData -> string.

Abbreviation chain_entries := (chain_entries digest JSON_stringify).
Abbreviation new_HashChain := (new_HashChain digest).

Lemma chain_entries_cons (c : HashChain) (e : AuditEntry)
      (raw : list AuditEntry) :
  chain_entries c (e :: raw)
  = (set_chain e (fst (addEntry digest JSON_stringify c e))
       :: fst (chain_entries (snd (addEntry digest JSON_stringify c e)) raw),
     snd (chain_entries (snd (addEntry digest JSON_stringify c e)) raw)).
Proof.
  simpl. now destruct (chain_entries _ raw).
Qed.

Lemma chain_entries_algorithm (raw : list AuditEntry) (c : HashChain) :
  algorithm (snd (chain_entries c raw)) = algorithm c.
Proof.
  revert c. induction raw as [|e raw IH]; intros c.
  - reflexivity.
  - rewrite chain_entries_cons. simpl. now rewrite IH.
Qed.

(** The invariant of the write path: what one chain instance produces is
    linked from the state the instance was in. *)
Lemma chain_entries_linked (raw : list AuditEntry) (c : HashChain) :
  linked_from (chain_previousHash c) (chain_sequence c)
              (fst (chain_entries c raw)).
Proof.
  revert c. induction raw as [|e raw IH]; intros c.
  - exact I.
  - rewrite chain_entries_cons. simpl.
    eexists. repeat split. apply (IH (mkHashChain _ _ _)).
Qed.

Lemma linked_from_adjacent (es : list AuditEntry) :
  forall prev n i a b,
    linked_from prev n es ->
    nth_error es i = Some a ->
    nth_error es (S i) = Some b ->
    exists ca cb,
      chain a = Some ca /\ chain b = Some cb
      /\ previousHash cb = hash ca /\ sequence cb = sequence ca + 1.
Proof.
  induction es as [|e es IH]; intros prev n i a b Hl Ha Hb.
  - destruct i; discriminate.
  - destruct Hl as (c & Hc & _ & Hn & Hl).
    destruct i as [|i].
    + injection Ha as <-. destruct es as [|e' es]; [discriminate|].
      injection Hb as <-. destruct Hl as (c' & Hc' & Hp' & Hn' & _).
      exists c, c'. repeat split; congruence || lia.
    + now apply (IH _ _ i a b Hl).
Qed.

Lemma linked_from_lower_bound (es : list AuditEntry) :
  forall prev n, linked_from prev n es ->
                 Forall (fun e => n <= sequence_or_0 e) es.
Proof.
  induction es as [|e es IH]; intros prev n Hl; constructor.
  - destruct Hl as (c & Hc & _ & Hn & _).
    unfold sequence_or_0. rewrite Hc. lia.
  - destruct Hl as (c & _ & _ & _ & Hl).
    apply IH in Hl. eapply Forall_impl; [|exact Hl]. simpl. lia.
Qed.

Lemma linked_from_NoDup (es : list AuditEntry) :
  forall prev n, linked_from prev n es -> NoDup (map sequence_or_0 es).
Proof.
  induction es as [|e es IH]; intros prev n Hl; simpl; constructor.
  - destruct Hl as (c & Hc & _ & Hn & Hl).
    apply linked_from_lower_bound in Hl. rewrite Forall_forall in Hl.
    intros Hin. apply in_map_iff in Hin. destruct Hin as (e' & Heq & Hin).
    apply Hl in Hin. unfold sequence_or_0 in Heq at 2. rewrite Hc in Heq.
    lia.
  - destruct Hl as (c & _ & _ & _ & Hl). now apply IH in Hl.
Qed.

(** Sorting by sequence leaves a linked list as it is. *)
Lemma linked_from_sorted (es : list AuditEntry) :
  forall prev n, linked_from prev n es -> Array_sort by_sequence es = es.
Proof.
  induction es as [|e es IH]; intros prev n Hl; simpl.
  - reflexivity.
  - destruct Hl as (c & Hc & _ & Hn & Hl). rewrite (IH _ _ Hl).
    destruct es as [|e' es]; [reflexivity|]. simpl.
    destruct Hl as (c' & Hc' & _ & Hn' & _).
    unfold by_sequence, sequence_or_0. rewrite Hc, Hc'.
    destruct (Z.leb_spec (sequence c - sequence c') 0); [reflexivity|lia].
Qed.

Lemma linked_from_verify_links (rest : list AuditEntry) :
  forall i previous p,
    chain previous = Some p ->
    linked_from (hash p) (sequence p + 1) rest ->
    verify_links i previous rest = verify_ok.
Proof.
  induction rest as [|e rest IH]; intros i previous p Hp Hl; simpl.
  - reflexivity.
  - destruct Hl as (c & Hc & Hprev & Hn & Hl). rewrite Hc, Hp, Hprev, Hn.
    rewrite String.eqb_refl, Z.eqb_refl. simpl.
    apply (IH _ _ c); [assumption | now rewrite Hn].
Qed.

(** A list linked from the genesis hash of the algorithm of the chain, or
    from any state whose sequence is not 0, passes [verifyChain] whatever
    the order in which it is presented. *)
Lemma linked_from_verifyChain (c : HashChain) (es es' : list AuditEntry)
      (prev : string) (n : Z) :
  linked_from prev n es ->
  n <> 0 \/ prev = computeGenesisHash digest (algorithm c) ->
  Permutation es es' ->
  verifyChain digest c es' = verify_ok.
Proof.
  intros Hl Hgen Hperm.
  assert (Hsort : Array_sort by_sequence es' = es).
  { rewrite <- (linked_from_sorted es prev n Hl).
    symmetry. apply (Array_sort_Permutation sequence_or_0 es es' Hperm).
    now apply linked_from_NoDup with prev n. }
  unfold verifyChain. rewrite Hsort.
  destruct es' as [|x es'].
  - reflexivity.
  - destruct es as [|e es]; [reflexivity|].
    destruct Hl as (fc & Hfc & Hprev & Hn & Hl). rewrite Hfc.
    replace ((sequence fc =? 0)
             && negb (previousHash fc
                      =? computeGenesisHash digest (algorithm c))%string)
      with false.
    + apply linked_from_verify_links with fc; [assumption | now rewrite Hn].
    + symmetry. destruct Hgen as [Hne|Heq].
      * apply andb_false_intro1. apply Z.eqb_neq. lia.
      * apply andb_false_intro2. rewrite Hprev, Heq.
        now rewrite String.eqb_refl.
Qed.

(** [verifyChain] reads nothing of an entry but its chain data. *)
Lemma sort_insert_same_chains (x y : AuditEntry) (l1 l2 : list AuditEntry) :
  chain x = chain y ->
  same_chains l1 l2 ->
  same_chains (sort_insert by_sequence x l1) (sort_insert by_sequence y l2).
Proof.
  intros Hxy H. induction H as [|a b l1 l2 Hab H IH]; simpl.
  - now repeat constructor.
  - unfold by_sequence, sequence_or_0. rewrite Hxy, Hab.
    destruct (_ <=? 0).
    + constructor; [assumption|]. now constructor.
    + now constructor.
Qed.

Lemma Array_sort_same_chains (l1 l2 : list AuditEntry) :
  same_chains l1 l2 ->
  same_chains (Array_sort by_sequence l1) (Array_sort by_sequence l2).
Proof.
  induction 1 as [|a b l1 l2 Hab H IH]; simpl.
  - constructor.
  - now apply sort_insert_same_chains.
Qed.

Lemma verify_links_same_chains (r1 r2 : list AuditEntry) :
  same_chains r1 r2 ->
  forall i p1 p2, chain p1 = chain p2 ->
                  verify_links i p1 r1 = verify_links i p2 r2.
Proof.
  induction 1 as [|a b r1 r2 Hab H IH]; intros i p1 p2 Hp; simpl.
  - reflexivity.
  - rewrite Hab, Hp.
    destruct (chain b) eqn:Hb, (chain p2); try reflexivity.
    repeat destruct (negb _); try reflexivity.
    apply IH. congruence.
Qed.

Lemma verifyChain_same_chains (c : HashChain) (es1 es2 : list AuditEntry) :
  same_chains es1 es2 -> verifyChain digest c es1 = verifyChain digest c es2.
Proof.
  intros H. unfold verifyChain.
  pose proof (Array_sort_same_chains _ _ H) as Hs.
  destruct H as [|a b es1 es2 Hab H]; [reflexivity|].
  destruct Hs as [|x y s1 s2 Hxy Hs]; [reflexivity|].
  rewrite Hxy. destruct (chain y) eqn:Hy; [|reflexivity].
  destruct (_ && _); [reflexivity|].
  apply verify_links_same_chains; [assumption | congruence].
Qed.

Lemma tamper_event_same_chains (es : list AuditEntry) :
  forall i ev, same_chains (tamper_event i ev es) es.
Proof.
  induction es as [|e es IH]; intros i ev; simpl.
  - destruct i; constructor.
  - destruct i as [|i]; constructor; try reflexivity.
    + clear. induction es; constructor; auto.
    + apply IH.
Qed.

(** C2 (chain contiguity).  The entries that successive [addEntry] calls
    on one fresh chain instance produce, in write order: there is one per
    call, the first one has the genesis digest of the algorithm (the digest
    of "GENESIS") as its [previousHash], and every entry after it has the
    [hash] of its predecessor as its [previousHash] and the [sequence] of
    its predecessor plus 1. *)
Theorem addEntry_chain_contiguity (alg : HashAlgorithm)
        (raw : list AuditEntry) :
  let es := fst (chain_entries (new_HashChain alg) raw) in
  List.length es = List.length raw
  /\ (forall e0, nth_error es 0 = Some e0 ->
                 exists c0, chain e0 = Some c0
                            /\ previousHash c0 = digest alg "GENESIS")
  /\ (forall i a b,
         nth_error es i = Some a ->
         nth_error es (S i) = Some b ->
         exists ca cb,
           chain a = Some ca /\ chain b = Some cb
           /\ previousHash cb = hash ca
           /\ sequence cb = sequence ca + 1).
Proof.
  intros es. subst es. split; [|split].
  - generalize (new_HashChain alg).
    induction raw as [|e raw IH]; intros c.
    + reflexivity.
    + rewrite chain_entries_cons. simpl. now rewrite IH.
  - intros e0 H0.
    pose proof (chain_entries_linked raw (new_HashChain alg)) as Hl.
    destruct (fst (chain_entries (new_HashChain alg) raw)) as [|e es];
      [discriminate|].
    injection H0 as <-. destruct Hl as (c0 & Hc0 & Hprev & _).
    exists c0. split; [assumption|]. exact Hprev.
  - intros i a b.
    apply linked_from_adjacent with (1 := chain_entries_linked _ _).
Qed.

(** C3 (verification in any input order).  The untampered entries that one
    fresh chain instance produced, presented to [verifyChain] of that
    instance in any permutation, are found valid; so the result is the same
    for every permutation of the input. *)
Theorem verifyChain_any_input_order (alg : HashAlgorithm)
        (raw es' : list AuditEntry) :
  let es := fst (chain_entries (new_HashChain alg) raw) in
  let c := snd (chain_entries (new_HashChain alg) raw) in
  Permutation es es' ->
  verifyChain digest c es' = verify_ok
  /\ verifyChain digest c es' = verifyChain digest c es.
Proof.
  intros es c Hperm.
  assert (Hok : forall l, Permutation es l ->
                          verifyChain digest c l = verify_ok).
  { intros l Hl.
    apply linked_from_verifyChain
      with (es := es) (prev := computeGenesisHash digest alg) (n := 0).
    - apply (chain_entries_linked raw (new_HashChain alg)).
    - right. unfold c. now rewrite chain_entries_algorithm.
    - exact Hl. }
  split.
  - now apply Hok.
  - rewrite (Hok es') by assumption.
    symmetry. apply Hok, Permutation_refl.
Qed.

(** C1 (what [verifyChain] does with a mutated event).  The specification
    wants [valid = false] once the event of one entry was mutated;
    [verifyChain] compares stored hashes and never recomputes one, so
    for the entries of a fresh chain with the event of the entry at any
    index replaced by any event, the stored hashes untouched, the answer is
    still [valid = true], with no [brokenAt]. *)
Theorem verifyChain_accepts_mutated_event (alg : HashAlgorithm)
        (raw : list AuditEntry) (i : nat) (ev : AuditEvent) :
  let es := fst (chain_entries (new_HashChain alg) raw) in
  let c := snd (chain_entries (new_HashChain alg) raw) in
  verifyChain digest c (tamper_event i ev es) = verify_ok.
Proof.
  intros es c.
  rewrite (verifyChain_same_chains c _ es (tamper_event_same_chains es i ev)).
  apply linked_from_verifyChain
    with (es := es) (prev := computeGenesisHash digest alg) (n := 0).
  - apply (chain_entries_linked raw (new_HashChain alg)).
  - right. unfold c. now rewrite chain_entries_algorithm.
  - apply Permutation_refl.
Qed.

(** C9 ([verifyEntry] and the fields outside the digest).  Two entries that
    agree on [id], [timestamp], [event] and [chain] get the same answer
    from [verifyEntry] for every expected previous hash, whatever their
    [service] and [signature] are. *)
Theorem verifyEntry_ignores_service_and_signature
        (c : HashChain) (e1 e2 : AuditEntry) (expectedPreviousHash : string) :
  id e1 = id e2 ->
  timestamp e1 = timestamp e2 ->
  event e1 = event e2 ->
  chain e1 = chain e2 ->
  verifyEntry digest JSON_stringify c e1 expectedPreviousHash
  = verifyEntry digest JSON_stringify c e2 expectedPreviousHash.
Proof.
  intros Hid Hts Hev Hch. unfold verifyEntry, computeHash.
  now rewrite Hid, Hts, Hev, Hch.
Qed.

End ChainFacts.

(** The chain of three sample entries is contiguous. *)
Lemma addEntry_chain_contiguity_witness :
  exists a b ca cb,
    nth_error Fixture.three 0 = Some a /\ nth_error Fixture.three 1 = Some b
    /\ chain a = Some ca /\ chain b = Some cb
    /\ previousHash cb = hash ca /\ sequence cb = sequence ca + 1.
Proof.
  destruct (addEntry_chain_contiguity Fixture.digest Fixture.JSON_stringify
              sha256 Fixture.three_raw) as (_ & _ & Hadj).
  destruct (Hadj 0%nat _ _ eq_refl eq_refl) as (ca & cb & H).
  eexists _, _, ca, cb. split; [reflexivity|]. split; [reflexivity|]. exact H.
Defined.

(** The three sample entries in reverse order are valid. *)
Lemma verifyChain_any_input_order_witness :
  verifyChain Fixture.digest
    (snd (chain_entries Fixture.digest Fixture.JSON_stringify
            (new_HashChain Fixture.digest sha256) Fixture.three_raw))
    (rev Fixture.three) = verify_ok.
Proof.
  apply (verifyChain_any_input_order Fixture.digest Fixture.JSON_stringify
           sha256 Fixture.three_raw (rev Fixture.three)).
  apply Permutation_rev.
Defined.

(** The failing input of C1: the second of the three sample entries gets the
    event of another action.  [verifyEntry] rejects the entry against the
    previous hash it stores, [verifyChain] accepts the list. *)
Example mutated_event_passes_verifyChain :
  let c := new_HashChain Fixture.digest sha256 in
  let mutated :=
    tamper_event 1 (normalize_event (Fixture.ev "drop_table")) Fixture.three in
  map (fun e =>
         verifyEntry Fixture.digest Fixture.JSON_stringify c e
                     (match chain e with
                      | Some ch => previousHash ch
                      | None => ""
                      end)) mutated
  = [true; false; true]
  /\ verifyChain Fixture.digest c mutated = verify_ok.
Proof. split; reflexivity. Qed.

(** Two entries that differ in service and signature only. *)
Lemma verifyEntry_ignores_service_and_signature_witness :
  let e1 := hd (Fixture.raw "a" 10 "login") Fixture.three in
  let e2 :=
    mkEntry (id e1) (timestamp e1) (event e1)
            (Some (mkService "billing" "2.0.0" "production"))
            (chain e1) (Some "signed") in
  verifyEntry Fixture.digest Fixture.JSON_stringify
              (new_HashChain Fixture.digest sha256) e1 "sha256(GENESIS)"
  = verifyEntry Fixture.digest Fixture.JSON_stringify
                (new_HashChain Fixture.digest sha256) e2 "sha256(GENESIS)".
Proof.
  intros e1 e2.
  apply (verifyEntry_ignores_service_and_signature
           Fixture.digest Fixture.JSON_stringify
           (new_HashChain Fixture.digest sha256) e1 e2 "sha256(GENESIS)");
    reflexivity.
Defined.

(** ** The memory store *)

Section SliceFacts.

Context {A : Type}.

Lemma firstn_whole (n : nat) (l : list A) :
  (List.length l <= n)%nat -> firstn n l = l.
Proof. apply firstn_all2. Qed.

(** [slice(-n)] keeps the last [n] elements when [n] is positive. *)
Lemma Array_slice_from_negative (l : list A) (n : Z) :
  0 < n -> Array_slice_from l (- n) = last_n (Z.to_nat n) l.
Proof.
  intros Hn. unfold Array_slice_from, relative_index, Array_length, last_n.
  destruct (Z.ltb_spec (- n) 0); [|lia].
  replace (Z.to_nat (Z.max (Z.of_nat (List.length l) + - n) 0))
    with (List.length l - Z.to_nat n)%nat by lia.
  apply firstn_whole. rewrite length_skipn. lia.
Qed.

(** [slice(-0)] is [slice(0)]: the whole array. *)
Lemma Array_slice_from_0 (l : list A) : Array_slice_from l (- 0) = l.
Proof.
  unfold Array_slice_from, relative_index, Array_length. simpl.
  rewrite Z.min_l by lia. simpl. apply firstn_whole. lia.
Qed.

(** [slice(O, O + L)] for an offset and a limit that are not negative. *)
Lemma Array_slice_page (l : list A) (O L : Z) :
  0 <= O -> 0 <= L ->
  Array_slice l O (O + L) = index_range l O (O + L).
Proof.
  intros HO HL. unfold Array_slice, relative_index, Array_length, index_range.
  destruct (Z.ltb_spec O 0); [lia|].
  destruct (Z.ltb_spec (O + L) 0); [lia|].
  set (len := List.length l).
  destruct (Z.le_gt_cases (Z.of_nat len) O) as [Hbig|Hsmall].
  - rewrite !skipn_all2 by (fold len; lia). now rewrite !firstn_nil.
  - rewrite (Z.min_l O) by lia.
    destruct (Z.le_gt_cases (O + L) (Z.of_nat len)).
    + rewrite Z.min_l by lia. f_equal. lia.
    + rewrite Z.min_r by lia.
      rewrite !firstn_whole; [reflexivity| |]; rewrite length_skipn;
        fold len; lia.
Qed.

Lemma index_range_length (l : list A) (O L : Z) :
  0 <= O -> 0 <= L ->
  Array_length (index_range l O (O + L))
  = Z.min L (Z.max (Array_length l - O) 0).
Proof.
  intros HO HL. unfold index_range, Array_length.
  rewrite length_firstn, length_skipn. lia.
Qed.

Lemma last_n_snoc (n : nat) (l : list A) (x : A) :
  (1 <= n)%nat -> last_n n (last_n n l ++ [x]) = last_n n (l ++ [x]).
Proof.
  intros Hn. unfold last_n at 2.
  destruct (Nat.le_gt_cases (List.length l) n) as [Hle|Hgt].
  - replace (List.length l - n)%nat with 0%nat by lia. reflexivity.
  - unfold last_n. rewrite !length_app, length_skipn. simpl.
    replace (List.length l - (List.length l - n) + 1 - n)%nat
      with 1%nat by lia.
    rewrite !skipn_app, skipn_skipn, length_skipn.
    replace (1 - (List.length l - (List.length l - n)))%nat
      with 0%nat by lia.
    replace (List.length l + 1 - n - List.length l)%nat with 0%nat by lia.
    f_equal. f_equal. lia.
Qed.

Lemma last_n_length (n : nat) (l : list A) :
  List.length (last_n n l) = Nat.min n (List.length l).
Proof. unfold last_n. rewrite length_skipn. lia. Qed.

End SliceFacts.

Section MemoryStoreFacts.

Lemma sort_insert_newest_first (x : AuditEntry) (l : list AuditEntry) :
  StronglySorted newest_first l ->
  StronglySorted newest_first (sort_insert (by_timestamp desc) x l).
Proof.
  induction 1 as [|y l Hs IH Hy]; simpl.
  - repeat constructor.
  - unfold by_timestamp at 1.
    destruct (Z.leb_spec (- (timestamp x - timestamp y)) 0).
    + constructor; [now constructor|].
      constructor; [unfold newest_first; lia|].
      eapply Forall_impl; [|exact Hy]. unfold newest_first. intros; lia.
    + constructor; [assumption|].
      apply (Permutation_Forall (sort_insert_Permutation _ x l)).
      constructor; [unfold newest_first; lia|assumption].
Qed.

Lemma Array_sort_newest_first (l : list AuditEntry) :
  StronglySorted newest_first (Array_sort (by_timestamp desc) l).
Proof.
  induction l as [|x l IH]; simpl.
  - constructor.
  - now apply sort_insert_newest_first.
Qed.

Lemma filter_if_nonempty_nil {A : Type} (allowed : option (list A))
      (keep : list A -> AuditEntry -> bool) :
  filter_if_nonempty allowed keep [] = [].
Proof. now destruct allowed as [[|x l]|]. Qed.

Lemma apply_filters_nil (query : AuditQuery) : apply_filters query [] = [].
Proof.
  unfold apply_filters.
  destruct (timeRange query) as [[[start|] [end_|]]|]; simpl;
    rewrite !filter_if_nonempty_nil;
    destruct (search query) as [s|]; try reflexivity;
    now destruct (truthy_string s).
Qed.

(** One write keeps the last [maxSize] entries, for a positive [maxSize]. *)
Lemma MemoryStore_write_last_n (m : MemoryStore) (entry : AuditEntry) :
  0 < maxSize m ->
  mem_entries (MemoryStore_write m entry)
  = last_n (Z.to_nat (maxSize m)) (mem_entries m ++ [entry])
  /\ maxSize (MemoryStore_write m entry) = maxSize m.
Proof.
  intros Hpos. unfold MemoryStore_write.
  destruct (Z.gtb_spec (Array_length (mem_entries m ++ [entry])) (maxSize m))
    as [Hgt|Hle]; simpl.
  - split; [|reflexivity]. now apply Array_slice_from_negative.
  - split; [|reflexivity]. unfold last_n, Array_length in *.
    replace (_ - _)%nat with 0%nat by lia. reflexivity.
Qed.

(** Eviction for a positive capacity: after any number of writes to a
    store that was created with [maxSize = N >= 1], the store holds the
    last [N] entries written, oldest first, and never more than [N]. *)
Lemma MemoryStore_keeps_most_recent (N : Z) (es : list AuditEntry) :
  1 <= N ->
  let m := write_all (new_MemoryStore (Some N)) es in
  mem_entries m = last_n (Z.to_nat N) es
  /\ Array_length (mem_entries m) <= N.
Proof.
  intros HN m.
  assert (H : mem_entries m = last_n (Z.to_nat N) es /\ maxSize m = N).
  { subst m. induction es as [|e es IH] using rev_ind.
    - split; reflexivity.
    - unfold write_all in *. rewrite fold_left_app. simpl.
      destruct IH as [IHe IHm].
      destruct (MemoryStore_write_last_n
                  (fold_left MemoryStore_write es (new_MemoryStore (Some N)))
                  e) as [He Hm]; [lia|].
      rewrite He, Hm, IHm, IHe. split; [|reflexivity].
      apply last_n_snoc. lia. }
  destruct H as [He _]. split; [exact He|].
  rewrite He. unfold Array_length. rewrite last_n_length. lia.
Qed.

(** A store of capacity 0 keeps whatever is written to it. *)
Lemma write_all_maxSize_0 (es : list AuditEntry) :
  forall m, maxSize m = 0 ->
            mem_entries (write_all m es) = mem_entries m ++ es.
Proof.
  unfold write_all. induction es as [|e es IH]; intros m Hm; simpl.
  - now rewrite app_nil_r.
  - rewrite IH.
    + unfold MemoryStore_write. rewrite Hm.
      destruct (_ >? 0); simpl;
        [rewrite Array_slice_from_0|]; now rewrite <- app_assoc.
    + unfold MemoryStore_write. now destruct (_ >? _).
Qed.

(** C6 (eviction).  The specification wants a store with [maxSize = N]
    to hold the last [N] entries written and never more than [N]; with
    [N = 0] the trimming expression [slice(-0)] is the whole array, so the
    store created with [maxSize = 0] keeps every entry written to it. *)
Theorem MemoryStore_maxSize_0_keeps_everything (es : list AuditEntry) :
  mem_entries (write_all (new_MemoryStore (Some 0)) es) = es
  /\ Array_length (mem_entries (write_all (new_MemoryStore (Some 0)) es))
     = Array_length es.
Proof.
  assert (H : mem_entries (write_all (new_MemoryStore (Some 0)) es) = es)
    by now rewrite write_all_maxSize_0.
  split; [exact H|now rewrite H].
Qed.

(** C10 ([close] of the memory store).  After [close()] a query with any
    filters finds nothing: no entries and a total of 0; and so does the
    query of a logger over a memory store after the logger is closed. *)
Theorem MemoryStore_close_discards_entries
        (m : MemoryStore) (query : AuditQuery) :
  entries (MemoryStore_query (MemoryStore_close m) query) = []
  /\ total (MemoryStore_query (MemoryStore_close m) query) = 0
  /\ forall (config : AuditConfig) (c : option HashChain) (w : SinkWriter),
      exists r,
        snd (logger_query query (fst (logger_close (mkLogger config c m w))))
        = Fulfilled r
        /\ entries r = [] /\ total r = 0.
Proof.
  assert (H : entries (MemoryStore_query (MemoryStore_close m) query) = []
              /\ total (MemoryStore_query (MemoryStore_close m) query) = 0).
  { unfold MemoryStore_query, MemoryStore_close. simpl.
    rewrite apply_filters_nil. simpl. split; [|reflexivity].
    unfold Array_slice. now rewrite skipn_nil, firstn_nil. }
  destruct H as [He Ht]. repeat split; try assumption.
  intros config c w. eexists. split; [reflexivity|]. now split.
Qed.

(** C5 (pagination), for an offset and a limit that are not negative (0
    and 100 when absent): the entries returned are those at the indices
    [O <= i < O + L] of the filtered entries in the order of the sort,
    newest first by default; [total] is the number of filtered entries;
    [hasMore] is true if and only if [O + L < total]. *)
Theorem query_pagination (m : MemoryStore) (query : AuditQuery) :
  0 <= nullish (offset query) 0 ->
  0 <= nullish (limit query) 100 ->
  pagination_contract m query.
Proof.
  intros HO HL. unfold pagination_contract, full_result, MemoryStore_query.
  simpl.
  set (filtered := apply_filters query (mem_entries m)).
  set (O := nullish (offset query) 0) in *.
  set (L := nullish (limit query) 100) in *.
  repeat split.
  - apply Array_sort_is_Permutation.
  - intros ->. apply Array_sort_newest_first.
  - now apply Array_slice_page.
  - apply Array_sort_length.
  - rewrite Array_slice_page, index_range_length, Array_sort_length
      by assumption.
    intros H. apply Z.ltb_lt in H. lia.
  - rewrite Array_slice_page, index_range_length, Array_sort_length
      by assumption.
    intros H. apply Z.ltb_lt. lia.
Qed.

End MemoryStoreFacts.

(** Of three stored entries, the page of one entry after the first. *)
Lemma query_pagination_witness :
  pagination_contract Fixture.store3 (Fixture.page (Some 1) (Some 1)).
Proof.
  apply (query_pagination Fixture.store3 (Fixture.page (Some 1) (Some 1)));
    simpl; lia.
Defined.

(** With three stored entries, [offset = -5] and [limit = 10]: [slice(-5, 5)]
    returns the three entries and [hasMore] is [-5 + 3 < 3], true, although
    [O + L = 5] is not below the total of 3. *)
Lemma query_negative_offset_breaks_pagination :
  ~ pagination_contract Fixture.store3 (Fixture.page (Some 10) (Some (-5))).
Proof.
  intros (_ & _ & _ & _ & H). vm_compute in H.
  destruct H as [H _]. specialize (H eq_refl). discriminate H.
Qed.

(** The failing input of C6: one write to a store created with
    [maxSize = 0] leaves one entry in the store. *)
Example MemoryStore_maxSize_0_one_write :
  let m := MemoryStore_write (new_MemoryStore (Some 0))
                             (Fixture.raw "a" 10 "login") in
  maxSize m = 0 /\ Array_length (mem_entries m) = 1.
Proof. split; reflexivity. Qed.

(** ** The sink writer and the logger *)

Section LoggerFacts.

Variable env : ProcessEnv.
Variable digest : HashAlgorithm -> string -> string.
Variable JSON_stringify : HashData -> string.
Variable JSON_stringify_entry : AuditEntry -> string.
Variable io_outcome : Trace -> IOEvent -> Settled unit.

Context {S : Type} {store_impl : AuditStore S}.

Abbreviation delivery := (delivery JSON_stringify_entry).
Abbreviation start_writes := (start_writes JSON_stringify_entry io_outcome).
Abbreviation SinkWriter_write :=
  (SinkWriter_write JSON_stringify_entry io_outcome).
Abbreviation log :=
  (log digest JSON_stringify JSON_stringify_entry io_outcome).
Abbreviation setConfig := (setConfig env digest).

(** Every sink gets its operation started, in the order of the list,
    whatever the earlier ones did. *)
Lemma start_writes_trace (sinks : list AuditSink) (entry : AuditEntry) :
  forall t,
    fst (start_writes sinks entry t)
    = t ++ map (fun sink => delivery sink entry) sinks
    /\ List.length (snd (start_writes sinks entry t)) = List.length sinks.
Proof.
  induction sinks as [|sink sinks IH]; intros t; simpl.
  - now rewrite app_nil_r.
  - destruct (IH (t ++ [delivery sink entry])) as [Ht Hn].
    destruct (start_writes sinks entry (t ++ [delivery sink entry]))
      as [t2 ps].
    simpl in *. rewrite Ht, <- app_assoc, Hn. now split.
Qed.

Lemma SinkWriter_write_settles (w : SinkWriter) (entry : AuditEntry)
      (t : Trace) :
  SinkWriter_write w entry t
  = (t ++ map (fun sink => delivery sink entry) (sw_sinks w), Fulfilled tt).
Proof.
  unfold SinkWriter_write.
  destruct (start_writes_trace (sw_sinks w) entry t) as [Ht _].
  destruct (start_writes (sw_sinks w) entry t) as [t' ps].
  simpl in *. now rewrite Ht.
Qed.

(** C4 (isolation of sink failures).  However the operations of the sinks
    settle ([io_outcome] is arbitrary): [SinkWriter.write] starts the
    delivery to every configured sink, in order, and fulfils; and [log]
    rejects exactly when the store rejects the write, with the reason of
    the store, and otherwise fulfils with the entry after the delivery to
    every sink was started. *)
Theorem sink_failures_are_isolated :
  (forall (w : SinkWriter) (entry : AuditEntry) (t : Trace),
      SinkWriter_write w entry t
      = (t ++ map (fun sink => delivery sink entry) (sw_sinks w),
         Fulfilled tt))
  /\ (forall (lg : AuditLogger S) (t : Trace) (uuid : string) (now : Z)
             (event : AuditEvent),
         exists entry : AuditEntry,
           id entry = uuid
           /\ lg_store (fst (fst (log uuid now event (lg, t))))
              = fst (store_write (lg_store lg) entry)
           /\ match snd (store_write (lg_store lg) entry) with
              | Fulfilled _ =>
                  log uuid now event (lg, t)
                  = (fst (log uuid now event (lg, t)), Fulfilled entry)
                  /\ snd (fst (log uuid now event (lg, t)))
                     = t ++ map (fun sink => delivery sink entry)
                                (sw_sinks (lg_sinkWriter lg))
              | Rejected reason =>
                  snd (log uuid now event (lg, t)) = Rejected reason
                  /\ snd (fst (log uuid now event (lg, t))) = t
              end).
Proof.
  split; [exact SinkWriter_write_settles|].
  intros lg t uuid now event.
  unfold log, await, attach_chain, write_store, write_sinks, resolve.
  destruct (lg_chain lg) as [c|]; simpl.
  - eexists. split; [|split].
    2: { destruct (store_write _ _) as [s' [u|r]] eqn:Hw; simpl.
         - rewrite SinkWriter_write_settles. simpl.
           rewrite Hw. reflexivity.
         - rewrite Hw. reflexivity. }
    + reflexivity.
    + destruct (store_write _ _) as [s' [u|r]]; simpl.
      * rewrite SinkWriter_write_settles. simpl. now split.
      * now split.
  - eexists. split; [|split].
    2: { destruct (store_write _ _) as [s' [u|r]] eqn:Hw; simpl.
         - rewrite SinkWriter_write_settles. simpl.
           rewrite Hw. reflexivity.
         - rewrite Hw. reflexivity. }
    + reflexivity.
    + destruct (store_write _ _) as [s' [u|r]]; simpl.
      * rewrite SinkWriter_write_settles. simpl. now split.
      * now split.
Qed.

(** With chaining on, [log] links the entry it builds by one [addEntry] on
    the chain of the logger, which advances whether or not the store accepts
    the write. *)
Lemma log_adds_entry_to_chain (lg : AuditLogger S) (t : Trace)
      (uuid : string) (now : Z) (ev : AuditEvent) (c : HashChain) :
  lg_chain lg = Some c ->
  exists raw,
    id raw = uuid /\ timestamp raw = now /\ event raw = normalize_event ev
    /\ chain raw = None
    /\ lg_chain (fst (fst (log uuid now ev (lg, t))))
       = Some (snd (addEntry digest JSON_stringify c raw))
    /\ forall entry,
        snd (log uuid now ev (lg, t)) = Fulfilled entry ->
        entry = set_chain raw (fst (addEntry digest JSON_stringify c raw)).
Proof.
  intros Hc.
  unfold log, await, attach_chain, write_store, write_sinks, resolve.
  rewrite Hc. simpl.
  exists {| id := uuid;
            timestamp := now;
            event := normalize_event ev;
            service :=
              Some {| service_name := serviceName (lg_config lg);
                      service_version := serviceVersion (lg_config lg);
                      service_environment := environment (lg_config lg) |};
            chain := None;
            signature := None |}.
  repeat split; simpl.
  - destruct (store_write (lg_store lg) _) as [s' [u|r]]; simpl;
      [|reflexivity].
    rewrite SinkWriter_write_settles. reflexivity.
  - intros entry.
    destruct (store_write (lg_store lg) _) as [s' [u|r]]; simpl.
    + rewrite SinkWriter_write_settles. simpl. congruence.
    + discriminate.
Qed.

(** C8 (normalisation of actor and resource).  In the entry that [log]
    hands to the store and resolves with, [event.actor] is the actor object
    of the event, unchanged, when the event has one, and is built from
    [actorId], [actorType] and [actorIp] only when it has none; the same
    for [event.resource] with [resourceId] and [resourceType]. *)
Theorem log_normalizes_actor_and_resource
        (lg : AuditLogger S) (t : Trace) (uuid : string) (now : Z)
        (ev : AuditEvent) (st' : AuditLogger S * Trace) (entry : AuditEntry) :
  log uuid now ev (lg, t) = (st', Fulfilled entry) ->
  lg_store (fst st') = fst (store_write (lg_store lg) entry)
  /\ (forall a, actor ev = Some a -> actor (event entry) = Some a)
  /\ (actor ev = None ->
      actor (event entry)
      = Some {| actor_id := actorId ev;
                actor_type := actorType ev;
                actor_name := None;
                actor_ip := actorIp ev;
                actor_userAgent := None;
                actor_sessionId := None;
                actor_metadata := None |})
  /\ (forall r, resource ev = Some r -> resource (event entry) = Some r)
  /\ (resource ev = None ->
      resource (event entry)
      = Some {| resource_id := resourceId ev;
                resource_type := resourceType ev;
                resource_name := None;
                resource_path := None;
                resource_metadata := None |}).
Proof.
  unfold log, await, attach_chain, write_store, write_sinks, resolve.
  intros H.
  assert (Hev : event entry = normalize_event ev
                /\ lg_store (fst st')
                   = fst (store_write (lg_store lg) entry)).
  { destruct (lg_chain lg) as [c|]; simpl in H;
      destruct (store_write _ _) as [s' [u|r]] eqn:Hw; simpl in H;
      try discriminate H;
      rewrite SinkWriter_write_settles in H; simpl in H;
      injection H as <- <-; simpl; rewrite Hw; now split. }
  destruct Hev as [-> Hst]. simpl.
  repeat split; try assumption; intros; subst;
    try match goal with H : _ = _ |- _ => rewrite H end; reflexivity.
Qed.

(** C7 ([setConfig] and the components of the logger).  The chain is kept,
    state included, when the partial configuration supplies no
    [hashChain]; it is replaced by a fresh chain at genesis when
    [hashChain: true] is supplied and dropped when [hashChain: false] is,
    whether or not that is the value the flag already had; the flag
    changes value only when it is supplied.  The sink writer is replaced
    by one over the supplied sinks and kept when none are supplied; the
    store is kept. *)
Theorem setConfig_replaces_what_is_supplied
        (lg : AuditLogger S) (config : PartialAuditConfig) :
  let lg' := setConfig lg config in
  (p_hashChain config = None -> lg_chain lg' = lg_chain lg)
  /\ (p_hashChain config = Some true ->
      lg_chain lg'
      = Some {| algorithm := hashAlgorithm (lg_config lg');
                chain_previousHash :=
                  digest (hashAlgorithm (lg_config lg')) "GENESIS";
                chain_sequence := 0 |})
  /\ (p_hashChain config = Some false -> lg_chain lg' = None)
  /\ (hashChain (lg_config lg') <> hashChain (lg_config lg) ->
      p_hashChain config = Some (hashChain (lg_config lg')))
  /\ (p_sinks config = None -> lg_sinkWriter lg' = lg_sinkWriter lg)
  /\ (forall sinks, p_sinks config = Some sinks ->
                    lg_sinkWriter lg' = mkSinkWriter sinks)
  /\ lg_store lg' = lg_store lg.
Proof.
  unfold setConfig. simpl. repeat split.
  - now intros ->.
  - now intros ->.
  - now intros ->.
  - destruct (p_hashChain config) as [flag|]; simpl;
      [reflexivity|congruence].
  - now intros ->.
  - now intros sinks ->.
Qed.

End LoggerFacts.

(** A logger whose custom sink throws and whose file sink cannot append:
    the three deliveries are started, two of them reject, [log] fulfils. *)
Example failing_sinks_do_not_reject_log :
  let r := Fixture.log_event "a" 10 (Fixture.ev "login") (Fixture.logger, []) in
  (exists entry, snd r = Fulfilled entry /\ id entry = "a")
  /\ map (Fixture.io_outcome []) (snd (fst r))
     = [Rejected "handler failed"; Fulfilled tt; Rejected "EACCES"].
Proof.
  split; [eexists; split; reflexivity|reflexivity].
Qed.

(** An event with the shorthand [actorId] and no actor object, and with a
    resource object next to the shorthand [resourceId]. *)
Lemma log_normalizes_actor_and_resource_witness :
  let doc := mkResource (Some "doc-1") (Some "document") None None None in
  let ev :=
    {| type := DATA_ACCESS; action := "read"; outcome := SUCCESS;
       description := None; actor := None; actorId := Some "user-123";
       actorType := Some "user"; actorIp := None; resource := Some doc;
       resourceId := Some "doc-2"; resourceType := None; trace := None;
       requestId := None; data := None; tags := None; durationMs := None;
       error := None |} in
  exists entry,
    snd (Fixture.log_event "a" 10 ev (Fixture.logger, [])) = Fulfilled entry
    /\ actor (event entry)
       = Some (mkActor (Some "user-123") (Some "user") None None None None
                       None)
    /\ resource (event entry) = Some doc.
Proof.
  intros doc ev.
  set (r := Fixture.log_event "a" 10 ev (Fixture.logger, [])).
  set (entry := match snd r with
                | Fulfilled e => e
                | Rejected _ => Fixture.raw "" 0 ""
                end).
  assert (H : r = (fst r, Fulfilled entry)) by (vm_compute; reflexivity).
  exists entry. split; [now rewrite H|].
  destruct (log_normalizes_actor_and_resource
              Fixture.digest Fixture.JSON_stringify
              Fixture.JSON_stringify_entry Fixture.io_outcome
              Fixture.logger [] "a" 10 ev (fst r) entry H)
    as (_ & _ & Hactor & Hresource & _).
  split; [exact (Hactor eq_refl)|exact (Hresource doc eq_refl)].
Defined.

(** New sinks and no [hashChain] supplied to a logger that has logged one
    event: the chain is kept, the sink writer is replaced. *)
Lemma setConfig_replaces_what_is_supplied_witness :
  let lg' :=
    setConfig Fixture.env Fixture.digest Fixture.logger_after_one
              (Fixture.partial None (Some [sink_console])) in
  lg_chain lg' = lg_chain Fixture.logger_after_one
  /\ lg_sinkWriter lg' = mkSinkWriter [sink_console].
Proof.
  intros lg'.
  destruct (setConfig_replaces_what_is_supplied
              Fixture.env Fixture.digest Fixture.logger_after_one
              (Fixture.partial None (Some [sink_console])))
    as (Hkeep & _ & _ & _ & _ & Hsinks & _).
  split; [exact (Hkeep eq_refl)|exact (Hsinks _ eq_refl)].
Defined.

(** [setConfig({hashChain: true})] on a logger with chaining on that has
    logged one event: the flag is true before and after, and the chain is
    back at genesis with sequence 0. *)
Lemma setConfig_same_flag_resets_chain :
  ~ chain_follows_flag_value Fixture.env Fixture.digest
      Fixture.logger_after_one (Fixture.partial (Some true) None).
Proof.
  intros [H _]. specialize (H eq_refl). vm_compute in H. discriminate H.
Qed.

(** ** More about the hash chain *)

Section ChainMore.

Variable digest : HashAlgorithm -> string -> string.
Variable JSON_stringify : HashData -> string.

Abbreviation chained := (chain_entries digest JSON_stringify).
Abbreviation fresh := (new_HashChain digest).

Lemma chain_entries_length (raw : list AuditEntry) :
  forall c, List.length (fst (chained c raw)) = List.length raw.
Proof.
  induction raw as [|e raw IH]; intros c.
  - reflexivity.
  - rewrite chain_entries_cons. simpl. now rewrite IH.
Qed.

Lemma chain_entries_app (raw1 raw2 : list AuditEntry) :
  forall c,
    chained c (raw1 ++ raw2)
    = (fst (chained c raw1) ++ fst (chained (snd (chained c raw1)) raw2),
       snd (chained (snd (chained c raw1)) raw2)).
Proof.
  induction raw1 as [|e raw1 IH]; intros c.
  - simpl. now destruct (chained c raw2).
  - rewrite <- app_comm_cons, !chain_entries_cons, IH. reflexivity.
Qed.

Lemma linked_from_firstn (es : list AuditEntry) :
  forall prev n m, linked_from prev n es -> linked_from prev n (firstn m es).
Proof.
  induction es as [|e es IH]; intros prev n m Hl.
  - now destruct m.
  - destruct m as [|m]; [exact I|].
    destruct Hl as (c & Hc & Hp & Hn & Hl). simpl.
    exists c. repeat split; try assumption. now apply IH.
Qed.

Lemma linked_from_skipn (k : nat) :
  forall es prev n,
    linked_from prev n es ->
    exists prev',
      linked_from prev' (n + Z.of_nat k) (skipn k es)
      /\ (k = 0%nat -> prev' = prev).
Proof.
  induction k as [|k IH]; intros es prev n Hl.
  - exists prev. rewrite Z.add_0_r. now split.
  - destruct es as [|e es].
    + exists prev. split; [exact I|discriminate].
    + destruct Hl as (c & _ & _ & _ & Hl).
      destruct (IH es _ _ Hl) as (prev' & Hl' & _).
      exists prev'. split; [|discriminate].
      simpl skipn. now replace (n + Z.of_nat (S k)) with (n + 1 + Z.of_nat k)
        by lia.
Qed.

Lemma linked_from_chained (es : list AuditEntry) :
  forall prev n, linked_from prev n es ->
                 Forall (fun e => chain e <> None) es.
Proof.
  induction es as [|e es IH]; intros prev n Hl; constructor.
  - destruct Hl as (c & Hc & _). congruence.
  - destruct Hl as (c & _ & _ & _ & Hl). now apply IH in Hl.
Qed.

Lemma linked_from_nth (es : list AuditEntry) :
  forall prev n i e,
    linked_from prev n es ->
    nth_error es i = Some e ->
    exists c, chain e = Some c /\ sequence c = n + Z.of_nat i.
Proof.
  induction es as [|x es IH]; intros prev n i e Hl Hi.
  - destruct i; discriminate.
  - destruct Hl as (c & Hc & _ & Hn & Hl). destruct i as [|i].
    + injection Hi as <-. exists c. split; [assumption|lia].
    + destruct (IH _ _ _ _ Hl Hi) as (c' & Hc' & Hn').
      exists c'. split; [assumption|lia].
Qed.

(** What [verifyChain] has checked when it answers [valid = true]. *)
Lemma verify_links_valid (rest : list AuditEntry) :
  forall i previous,
    valid (verify_links i previous rest) = true ->
    rest = []
    \/ exists p, chain previous = Some p
                 /\ linked_from (hash p) (sequence p + 1) rest.
Proof.
  induction rest as [|e rest IH]; intros i previous H; [now left|right].
  cbn [verify_links] in H.
  destruct (chain e) as [cur|] eqn:He; [|discriminate].
  destruct (chain previous) as [prev|] eqn:Hp; [|discriminate].
  destruct (String.eqb (previousHash cur) (hash prev)) eqn:Hh;
    [|discriminate].
  destruct (sequence cur =? sequence prev + 1) eqn:Hs; [|discriminate].
  cbn [negb] in H.
  apply String.eqb_eq in Hh. apply Z.eqb_eq in Hs.
  exists prev. split; [reflexivity|].
  exists cur. repeat split; try assumption.
  destruct (IH _ _ H) as [-> | (p & Hp' & Hl)]; [exact I|].
  rewrite He in Hp'. injection Hp' as <-. rewrite <- Hs. exact Hl.
Qed.

Lemma verifyChain_valid_linked (c : HashChain) (es : list AuditEntry) :
  valid (verifyChain digest c es) = true ->
  exists prev n,
    linked_from prev n (Array_sort by_sequence es)
    /\ (n = 0 -> prev = computeGenesisHash digest (algorithm c)).
Proof.
  unfold verifyChain. intros H.
  destruct es as [|x es]; [exists "", 1; split; [exact I|lia]|].
  destruct (Array_sort by_sequence (x :: es)) as [|first rest];
    [exists "", 1; split; [exact I|lia]|].
  destruct (chain first) as [fc|] eqn:Hfc; [|discriminate].
  destruct ((sequence fc =? 0) && _) eqn:Hgen; [discriminate|].
  exists (previousHash fc), (sequence fc). split.
  - exists fc. repeat split; try assumption.
    destruct (verify_links_valid _ _ _ H) as [-> | (p & Hp & Hl)];
      [exact I|].
    rewrite Hfc in Hp. injection Hp as <-. exact Hl.
  - intros H0. rewrite H0 in Hgen. simpl in Hgen.
    apply negb_false_iff, String.eqb_eq in Hgen. exact Hgen.
Qed.

Lemma linked_verifyChain_ok (c : HashChain) (es : list AuditEntry)
      (prev : string) (n : Z) :
  linked_from prev n (Array_sort by_sequence es) ->
  (n = 0 -> prev = computeGenesisHash digest (algorithm c)) ->
  verifyChain digest c es = verify_ok.
Proof.
  intros Hl Hgen.
  apply linked_from_verifyChain
    with (es := Array_sort by_sequence es) (prev := prev) (n := n).
  - exact Hl.
  - destruct (Z.eq_dec n 0); [right; auto|now left].
  - apply Permutation_sym, Array_sort_is_Permutation.
Qed.

(** X1.  [verifyChain] answers [valid = true] exactly when the entries,
    sorted by sequence, all carry chain data, each continues the hash and
    the sequence of the one before, and the first one, if its sequence is
    0, has the genesis hash of the algorithm as its [previousHash]; and then
    the answer has neither [brokenAt] nor [error]. *)
Theorem verifyChain_valid_iff (c : HashChain) (es : list AuditEntry) :
  (valid (verifyChain digest c es) = true
   <-> verifyChain digest c es = verify_ok)
  /\ (verifyChain digest c es = verify_ok
      <-> exists prev n,
          linked_from prev n (Array_sort by_sequence es)
          /\ (n = 0 -> prev = computeGenesisHash digest (algorithm c))).
Proof.
  assert (Hback : forall prev n,
             linked_from prev n (Array_sort by_sequence es)
             /\ (n = 0 -> prev = computeGenesisHash digest (algorithm c)) ->
             verifyChain digest c es = verify_ok).
  { intros prev n [Hl Hgen]. now apply linked_verifyChain_ok with prev n. }
  split; split.
  - intros H. destruct (verifyChain_valid_linked c es H) as (prev & n & Hl).
    now apply (Hback prev n).
  - now intros ->.
  - intros H. apply verifyChain_valid_linked. now rewrite H.
  - intros (prev & n & Hl). now apply (Hback prev n).
Qed.

(** X2.  A list in which some entry carries no chain data is never valid,
    wherever the entry is in the list. *)
Theorem verifyChain_rejects_missing_chain_data
        (c : HashChain) (es : list AuditEntry) (e : AuditEntry) :
  In e es -> chain e = None -> valid (verifyChain digest c es) = false.
Proof.
  intros Hin Hnone.
  destruct (valid (verifyChain digest c es)) eqn:Hv; [|reflexivity].
  destruct (verifyChain_valid_linked c es Hv) as (prev & n & Hl & _).
  apply linked_from_chained in Hl. rewrite Forall_forall in Hl.
  exfalso. apply (Hl e); [|assumption].
  apply (Permutation_in e (Array_sort_is_Permutation by_sequence es) Hin).
Qed.

(** X3.  Entries missing at the start or at the end are not noticed: the
    entries of a fresh chain without the [k] first ones, cut after [m]
    entries, are valid. *)
Theorem verifyChain_accepts_truncated_chain
        (alg : HashAlgorithm) (raw : list AuditEntry) (k m : nat) :
  let es := fst (chained (fresh alg) raw) in
  let c := snd (chained (fresh alg) raw) in
  verifyChain digest c (firstn m (skipn k es)) = verify_ok.
Proof.
  intros es c.
  destruct (linked_from_skipn k es _ _
              (chain_entries_linked digest JSON_stringify raw (fresh alg)))
    as (prev' & Hl & Hk).
  apply linked_from_firstn with (m := m) in Hl.
  apply linked_from_verifyChain
    with (es := firstn m (skipn k es)) (prev := prev')
         (n := chain_sequence (fresh alg) + Z.of_nat k).
  - exact Hl.
  - destruct k as [|k]; [right|left; simpl; lia].
    rewrite (Hk eq_refl). unfold c.
    now rewrite chain_entries_algorithm.
  - apply Permutation_refl.
Qed.

Lemma Forall_remove_at {A : Type} (P : A -> Prop) (l : list A) (i : nat) :
  Forall P l -> Forall P (remove_at i l).
Proof.
  intros H. unfold remove_at. apply Forall_app. split.
  - rewrite <- (firstn_skipn i l) in H. now apply Forall_app in H.
  - rewrite <- (firstn_skipn (S i) l) in H. now apply Forall_app in H.
Qed.

Lemma remove_at_cons {A : Type} (x : A) (l : list A) (i : nat) :
  remove_at (S i) (x :: l) = x :: remove_at i l.
Proof. reflexivity. Qed.

Lemma StronglySorted_remove_at {A : Type} (R : A -> A -> Prop) (l : list A) :
  StronglySorted R l -> forall i, StronglySorted R (remove_at i l).
Proof.
  induction 1 as [|x l Hs IH Hx]; intros i.
  - destruct i; constructor.
  - destruct i as [|i].
    + exact Hs.
    + rewrite remove_at_cons. constructor; [apply IH|].
      now apply Forall_remove_at.
Qed.

Lemma linked_from_increasing (es : list AuditEntry) :
  forall prev n, linked_from prev n es ->
                 StronglySorted sequence_increases es.
Proof.
  induction es as [|e es IH]; intros prev n Hl; constructor.
  - destruct Hl as (c & _ & _ & _ & Hl). now apply IH in Hl.
  - destruct Hl as (c & Hc & _ & Hn & Hl).
    apply linked_from_lower_bound in Hl.
    eapply Forall_impl; [|exact Hl].
    unfold sequence_increases, sequence_or_0 at 2. rewrite Hc.
    intros a Ha. simpl in Ha. lia.
Qed.

(** Sorting by sequence leaves a list with increasing sequences as it is. *)
Lemma Array_sort_increasing (l : list AuditEntry) :
  StronglySorted sequence_increases l -> Array_sort by_sequence l = l.
Proof.
  induction 1 as [|x l Hs IH Hx]; simpl.
  - reflexivity.
  - rewrite IH. destruct l as [|y l]; [reflexivity|]. simpl.
    inversion Hx as [|? ? Hxy _]; subst.
    unfold sequence_increases in Hxy. unfold by_sequence.
    destruct (Z.leb_spec (sequence_or_0 x - sequence_or_0 y) 0);
      [reflexivity|lia].
Qed.

(** The loop of [verifyChain] over a linked list from which the entry at
    an inner index was taken out stops at that index. *)
Lemma verify_links_removed (j : nat) :
  forall rest i previous p,
    chain previous = Some p ->
    linked_from (hash p) (sequence p + 1) rest ->
    (S j < List.length rest)%nat ->
    valid (verify_links i previous (remove_at j rest)) = false
    /\ brokenAt (verify_links i previous (remove_at j rest))
       = Some (i + Z.of_nat j).
Proof.
  induction j as [|j IH]; intros rest i previous p Hp Hl Hlen.
  - destruct rest as [|e1 [|e2 rest]]; simpl in Hlen; try lia.
    destruct Hl as (c1 & Hc1 & _ & Hn1 & c2 & Hc2 & Hp2 & Hn2 & _).
    unfold remove_at. cbn [firstn skipn app verify_links].
    rewrite Hc2, Hp, Z.add_0_r.
    destruct (String.eqb (previousHash c2) (hash p)); cbn [negb];
      [|now split].
    destruct (Z.eqb_spec (sequence c2) (sequence p + 1)); [lia|].
    now split.
  - destruct rest as [|e1 rest]; simpl in Hlen; [lia|].
    destruct Hl as (c1 & Hc1 & Hp1 & Hn1 & Hl).
    rewrite remove_at_cons. cbn [verify_links].
    rewrite Hc1, Hp, Hp1, Hn1, String.eqb_refl, Z.eqb_refl. cbn [negb].
    destruct (IH rest (i + 1) e1 c1 Hc1) as [Hv Hb].
    + now rewrite Hn1.
    + lia.
    + split; [exact Hv|]. rewrite Hb. f_equal. lia.
Qed.

(** X4.  An entry missing inside is noticed: the entries of a fresh chain
    without the one at an index [i] that is neither the first nor the last
    are not valid, and [brokenAt] is [i]. *)
Theorem verifyChain_detects_removed_entry
        (alg : HashAlgorithm) (raw : list AuditEntry) (i : nat) :
  (0 < i)%nat ->
  (S i < List.length raw)%nat ->
  let es := fst (chained (fresh alg) raw) in
  let c := snd (chained (fresh alg) raw) in
  valid (verifyChain digest c (remove_at i es)) = false
  /\ brokenAt (verifyChain digest c (remove_at i es)) = Some (Z.of_nat i).
Proof.
  intros Hi Hlen es c.
  pose proof (chain_entries_linked digest JSON_stringify raw (fresh alg))
    as Hl.
  pose proof (chain_entries_length raw (fresh alg)) as Hes.
  fold es in Hl, Hes.
  assert (Hsort : Array_sort by_sequence (remove_at i es) = remove_at i es).
  { apply Array_sort_increasing, StronglySorted_remove_at.
    now apply linked_from_increasing in Hl. }
  destruct i as [|j]; [lia|].
  destruct es as [|e0 rest]; simpl in Hes; [lia|].
  destruct Hl as (c0 & Hc0 & Hp0 & Hn0 & Hl).
  unfold verifyChain. rewrite Hsort, remove_at_cons, Hc0.
  simpl in Hn0. rewrite Hn0. cbn [Z.eqb andb].
  simpl in Hp0. rewrite Hp0. unfold c.
  rewrite chain_entries_algorithm. simpl algorithm.
  unfold computeGenesisHash at 1 3. rewrite String.eqb_refl. cbn [negb].
  destruct (verify_links_removed j rest 1 e0 c0 Hc0) as [Hv Hb].
  - now rewrite Hn0.
  - lia.
  - split; [exact Hv|]. rewrite Hb. f_equal. lia.
Qed.

(** X5.  The entries of two chains that both started at genesis, as a
    logger writes them before and after a restart without [restoreState],
    are never valid together. *)
Theorem verifyChain_rejects_restarted_chain
        (alg1 alg2 : HashAlgorithm) (raw1 raw2 : list AuditEntry)
        (c : HashChain) :
  raw1 <> [] ->
  raw2 <> [] ->
  valid (verifyChain digest c
           (fst (chained (fresh alg1) raw1)
            ++ fst (chained (fresh alg2) raw2))) = false.
Proof.
  intros H1 H2.
  destruct (valid _) eqn:Hv; [|reflexivity]. exfalso.
  destruct (verifyChain_valid_linked _ _ Hv) as (prev & n & Hl & _).
  apply linked_from_NoDup in Hl.
  apply (Permutation_NoDup
           (Permutation_map sequence_or_0
              (Permutation_sym (Array_sort_is_Permutation by_sequence _))))
    in Hl.
  destruct raw1 as [|r1 raw1]; [contradiction|].
  destruct raw2 as [|r2 raw2]; [contradiction|].
  rewrite !chain_entries_cons in Hl. cbn [fst] in Hl.
  rewrite map_app in Hl. apply NoDup_remove_2 in Hl.
  apply Hl. left. reflexivity.
Qed.

Lemma chain_entries_hashes (raw : list AuditEntry) :
  forall c,
    Forall (fun e =>
              exists ce,
                chain e = Some ce
                /\ hash ce
                   = computeHash digest JSON_stringify (algorithm c) e
                                 (previousHash ce))
           (fst (chained c raw)).
Proof.
  induction raw as [|r raw IH]; intros c.
  - constructor.
  - rewrite chain_entries_cons. cbn [fst]. constructor.
    + eexists. split; reflexivity.
    + apply (IH (snd (addEntry digest JSON_stringify c r))).
Qed.

(** X6.  Every entry that a chain linked passes [verifyEntry] of that
    chain against the previous hash it stores. *)
Theorem verifyEntry_accepts_chained_entry
        (alg : HashAlgorithm) (raw : list AuditEntry) (e : AuditEntry) :
  let es := fst (chained (fresh alg) raw) in
  let c := snd (chained (fresh alg) raw) in
  In e es ->
  exists ce,
    chain e = Some ce
    /\ verifyEntry digest JSON_stringify c e (previousHash ce) = true.
Proof.
  intros es c Hin.
  pose proof (chain_entries_hashes raw (fresh alg)) as H.
  rewrite Forall_forall in H. destruct (H e Hin) as (ce & Hce & Hh).
  exists ce. split; [assumption|].
  unfold verifyEntry, c. rewrite Hce, chain_entries_algorithm, <- Hh.
  apply String.eqb_refl.
Qed.

(** X7.  A chain resumes through its state: what a chain links for two
    batches of entries is what it links for the first batch followed by
    what a new chain of the same algorithm links for the second batch after
    [restoreState] with the [getState] of the first. *)
Theorem restoreState_resumes_chain
        (c : HashChain) (raw1 raw2 : list AuditEntry) :
  let c1 := snd (chained c raw1) in
  let resumed :=
    restoreState (fresh (algorithm c)) (fst (getState c1))
                 (snd (getState c1)) in
  chained c (raw1 ++ raw2)
  = (fst (chained c raw1) ++ fst (chained resumed raw2),
     snd (chained resumed raw2)).
Proof.
  intros c1 resumed.
  assert (Hc1 : resumed = c1).
  { unfold resumed, restoreState, getState. simpl.
    rewrite <- (chain_entries_algorithm digest JSON_stringify raw1 c).
    fold c1. now destruct c1. }
  rewrite Hc1. apply chain_entries_app.
Qed.

Lemma last_cons {A : Type} (l : list A) (a d : A) :
  last (a :: l) d = last l a.
Proof.
  revert a d. induction l as [|b l IH]; intros a d; [reflexivity|].
  change (last (a :: b :: l) d) with (last (b :: l) d).
  now rewrite (IH b d), (IH b a).
Qed.

(** X8.  The entry at index [i] of what a fresh chain linked has sequence
    [i]; afterwards [getState] returns the hash of the last entry (the
    genesis hash when there is none) and the number of entries. *)
Theorem getState_after_entries (alg : HashAlgorithm) (raw : list AuditEntry) :
  let es := fst (chained (fresh alg) raw) in
  let c := snd (chained (fresh alg) raw) in
  (forall i e, nth_error es i = Some e ->
               exists ce, chain e = Some ce /\ sequence ce = Z.of_nat i)
  /\ getState c
     = (last (map (fun e => match chain e with
                            | Some ce => hash ce
                            | None => EmptyString
                            end) es)
             (computeGenesisHash digest alg),
        Z.of_nat (List.length raw)).
Proof.
  intros es c. split.
  - intros i e Hi.
    destruct (linked_from_nth es _ _ i e
                (chain_entries_linked digest JSON_stringify raw (fresh alg))
                Hi) as (ce & Hce & Hn).
    exists ce. split; [assumption|]. simpl in Hn. lia.
  - subst es c. change (computeGenesisHash digest alg)
      with (chain_previousHash (fresh alg)).
    replace (Z.of_nat (List.length raw))
      with (chain_sequence (fresh alg) + Z.of_nat (List.length raw))
      by (simpl; lia).
    generalize (fresh alg).
    induction raw as [|r raw IH]; intros c0.
    + unfold getState. simpl. f_equal. lia.
    + rewrite chain_entries_cons. cbn [fst snd map].
      rewrite last_cons, IH. cbn [chain set_chain addEntry fst snd hash
                                   chain_previousHash chain_sequence].
      f_equal. cbn [List.length]. lia.
Qed.

End ChainMore.

(** ** More about the memory store *)

Section QueryMore.

Lemma filter_true {A : Type} (l : list A) : filter (fun _ => true) l = l.
Proof. induction l as [|x l IH]; simpl; congruence. Qed.

Lemma filter_filter {A : Type} (f g : A -> bool) (l : list A) :
  filter f (filter g l) = filter (fun x => g x && f x) l.
Proof.
  induction l as [|x l IH]; simpl; [reflexivity|].
  destruct (g x); simpl; [destruct (f x)|]; now rewrite IH.
Qed.

Lemma filter_if_nonempty_filter {A : Type} (allowed : option (list A))
      (keep : list A -> AuditEntry -> bool) (l : list AuditEntry) :
  filter_if_nonempty allowed keep l
  = filter (fun e => passes allowed (fun a => keep a e)) l.
Proof.
  destruct allowed as [[|x a]|]; simpl; now rewrite ?filter_true.
Qed.

(** The entries left after the filters were applied one after the other
    are the entries that match every filter, in the order they had. *)
Lemma apply_filters_matches (query : AuditQuery) (l : list AuditEntry) :
  apply_filters query l = filter (matches query) l.
Proof.
  unfold apply_filters. cbv zeta.
  rewrite !filter_if_nonempty_filter.
  assert (Hstart :
            match timeRange query with
            | Some {| range_start := Some start |} =>
                filter (fun e => timestamp e >=? start) l
            | _ => l
            end
            = filter (fun e =>
                        match timeRange query with
                        | Some {| range_start := Some start |} =>
                            timestamp e >=? start
                        | _ => true
                        end) l).
  { destruct (timeRange query) as [[[start|] end_]|];
      now rewrite ?filter_true. }
  rewrite Hstart. clear Hstart.
  set (l1 := filter _ l).
  assert (Hend :
            match timeRange query with
            | Some {| range_end := Some end_ |} =>
                filter (fun e => timestamp e <=? end_) l1
            | _ => l1
            end
            = filter (fun e =>
                        match timeRange query with
                        | Some {| range_end := Some end_ |} =>
                            timestamp e <=? end_
                        | _ => true
                        end) l1).
  { destruct (timeRange query) as [[start [end_|]]|];
      now rewrite ?filter_true. }
  rewrite Hend. clear Hend. subst l1.
  set (l9 := filter _ (filter _ (filter _ (filter _ (filter _ (filter _
               (filter _ (filter _ (filter _ l))))))))).
  assert (Hsearch :
            match search query with
            | Some s =>
                if truthy_string s
                then
                  filter
                    (fun e =>
                       match description (event e) with
                       | Some d => String_includes (toLowerCase d)
                                                   (toLowerCase s)
                       | None => false
                       end
                       || String_includes (toLowerCase (action (event e)))
                                          (toLowerCase s)) l9
                else l9
            | None => l9
            end
            = filter
                (fun e =>
                   match search query with
                   | Some s =>
                       if truthy_string s
                       then
                         match description (event e) with
                         | Some d => String_includes (toLowerCase d)
                                                     (toLowerCase s)
                         | None => false
                         end
                         || String_includes (toLowerCase (action (event e)))
                                            (toLowerCase s)
                       else true
                   | None => true
                   end) l9).
  { destruct (search query) as [s|]; [destruct (truthy_string s)|];
      now rewrite ?filter_true. }
  rewrite Hsearch. clear Hsearch. subst l9.
  rewrite !filter_filter. apply filter_ext. intros e.
  unfold matches. now rewrite !andb_assoc.
Qed.

Lemma In_firstn_skipn {A : Type} (x : A) (l : list A) (a b : nat) :
  In x (firstn a (skipn b l)) -> In x l.
Proof.
  intros H.
  rewrite <- (firstn_skipn b l). apply in_or_app. right.
  rewrite <- (firstn_skipn a (skipn b l)). apply in_or_app. now left.
Qed.

Lemma Array_slice_length {A : Type} (l : list A) (start end_ : Z) :
  Array_length (Array_slice l start end_)
  = Z.max 0 (relative_index (Array_length l) end_
             - relative_index (Array_length l) start).
Proof.
  unfold Array_slice, Array_length.
  rewrite length_firstn, length_skipn.
  unfold relative_index.
  destruct (Z.ltb_spec start 0), (Z.ltb_spec end_ 0); lia.
Qed.

(** X9.  The filters of a query are combined by "and": what is paged is
    the stored entries that match every filter; [total] is their number,
    and every entry returned is a stored entry that matches the query. *)
Theorem query_returns_stored_matches (m : MemoryStore) (query : AuditQuery) :
  Permutation (filter (matches query) (mem_entries m)) (full_result m query)
  /\ total (MemoryStore_query m query)
     = Array_length (filter (matches query) (mem_entries m))
  /\ forall e,
      In e (entries (MemoryStore_query m query)) ->
      In e (mem_entries m) /\ matches query e = true.
Proof.
  unfold MemoryStore_query, full_result. cbn [total entries].
  rewrite apply_filters_matches, Array_sort_length.
  split; [apply Array_sort_is_Permutation|]. split; [reflexivity|].
  intros e He. apply In_firstn_skipn in He.
  apply (Permutation_in e
           (Permutation_sym (Array_sort_is_Permutation _ _))) in He.
  now apply filter_In in He.
Qed.

(** X10.  A query never returns more entries than [total], whatever its
    offset and limit, and never more than its limit when the limit is not
    negative (100 when absent). *)
Theorem query_size_bounds (m : MemoryStore) (query : AuditQuery) :
  Array_length (entries (MemoryStore_query m query))
  <= total (MemoryStore_query m query)
  /\ (0 <= nullish (limit query) 100 ->
      Array_length (entries (MemoryStore_query m query))
      <= nullish (limit query) 100).
Proof.
  unfold MemoryStore_query. cbn [total entries].
  rewrite Array_slice_length.
  set (len := Array_length (Array_sort _ _)).
  assert (0 <= len) by (unfold len, Array_length; lia).
  unfold relative_index.
  destruct (Z.ltb_spec (nullish (offset query) 0) 0),
    (Z.ltb_spec (nullish (offset query) 0 + nullish (limit query) 100) 0);
    split; lia.
Qed.

Lemma sort_insert_oldest_first (x : AuditEntry) (l : list AuditEntry) :
  StronglySorted oldest_first l ->
  StronglySorted oldest_first (sort_insert (by_timestamp asc) x l).
Proof.
  induction 1 as [|y l Hs IH Hy]; simpl.
  - repeat constructor.
  - unfold by_timestamp at 1.
    destruct (Z.leb_spec (timestamp x - timestamp y) 0).
    + constructor; [now constructor|].
      constructor; [unfold oldest_first; lia|].
      eapply Forall_impl; [|exact Hy]. unfold oldest_first. intros; lia.
    + constructor; [assumption|].
      apply (Permutation_Forall (sort_insert_Permutation _ x l)).
      constructor; [unfold oldest_first; lia|assumption].
Qed.

Lemma Array_sort_oldest_first (l : list AuditEntry) :
  StronglySorted oldest_first (Array_sort (by_timestamp asc) l).
Proof.
  induction l as [|x l IH]; simpl.
  - constructor.
  - now apply sort_insert_oldest_first.
Qed.

Lemma StronglySorted_skipn {A : Type} (R : A -> A -> Prop) (n : nat) :
  forall l, StronglySorted R l -> StronglySorted R (skipn n l).
Proof.
  induction n as [|n IH]; intros l H; [exact H|].
  destruct l as [|x l]; [constructor|].
  inversion H; subst. now apply IH.
Qed.

Lemma StronglySorted_firstn {A : Type} (R : A -> A -> Prop) (n : nat) :
  forall l, StronglySorted R l -> StronglySorted R (firstn n l).
Proof.
  induction n as [|n IH]; intros l H; [constructor|].
  destruct l as [|x l]; [constructor|].
  inversion H as [|? ? Hs Hx]; subst. simpl. constructor; [now apply IH|].
  rewrite <- (firstn_skipn n l) in Hx. now apply Forall_app in Hx.
Qed.

(** X11.  The entries returned are in the order asked for, for every offset
    and limit: oldest first for [sort: "asc"], newest first for
    [sort: "desc"] and when no sort is given. *)
Theorem query_entries_sorted (m : MemoryStore) (query : AuditQuery) :
  (sort query = Some asc ->
   StronglySorted oldest_first (entries (MemoryStore_query m query)))
  /\ (sort query <> Some asc ->
      StronglySorted newest_first (entries (MemoryStore_query m query))).
Proof.
  unfold MemoryStore_query, Array_slice. cbn [entries]. split; intros Hs.
  - rewrite Hs. apply StronglySorted_firstn, StronglySorted_skipn.
    apply Array_sort_oldest_first.
  - apply StronglySorted_firstn, StronglySorted_skipn.
    destruct (sort query) as [[|]|]; try congruence;
      apply Array_sort_newest_first.
Qed.

Lemma firstn_add {A : Type} (a b : nat) :
  forall l : list A, firstn a l ++ firstn b (skipn a l) = firstn (a + b) l.
Proof.
  induction a as [|a IH]; intros l; [reflexivity|].
  destruct l as [|x l]; simpl; [now rewrite firstn_nil|].
  now rewrite IH.
Qed.

(** X12.  Consecutive pages join: for an offset and limits that are not
    negative, the page of [L1] entries at [O] followed by the page of [L2]
    entries at [O + L1] is the page of [L1 + L2] entries at [O]. *)
Theorem query_pages_join (m : MemoryStore) (query : AuditQuery)
        (O L1 L2 : Z) :
  0 <= O -> 0 <= L1 -> 0 <= L2 ->
  entries (MemoryStore_query m (paged query L1 O))
  ++ entries (MemoryStore_query m (paged query L2 (O + L1)))
  = entries (MemoryStore_query m (paged query (L1 + L2) O)).
Proof.
  intros HO H1 H2. unfold MemoryStore_query. cbn [entries].
  change (apply_filters (paged query L1 O))
    with (apply_filters query).
  change (apply_filters (paged query L2 (O + L1)))
    with (apply_filters query).
  change (apply_filters (paged query (L1 + L2) O))
    with (apply_filters query).
  cbn [paged sort limit offset nullish].
  set (full := Array_sort _ _).
  rewrite !Array_slice_page by lia. unfold index_range.
  replace (Z.to_nat (O + L1) - Z.to_nat O)%nat with (Z.to_nat L1) by lia.
  replace (Z.to_nat (O + L1 + L2) - Z.to_nat (O + L1))%nat
    with (Z.to_nat L2) by lia.
  replace (Z.to_nat (O + (L1 + L2)) - Z.to_nat O)%nat
    with (Z.to_nat L1 + Z.to_nat L2)%nat by lia.
  replace (Z.to_nat (O + L1)) with (Z.to_nat L1 + Z.to_nat O)%nat by lia.
  rewrite <- skipn_skipn.
  apply firstn_add.
Qed.

(** X13.  With a capacity of at least 1, [write] puts the entry last and
    drops nothing but oldest entries: the store afterwards holds a final
    part of what it held, followed by the entry. *)
Theorem MemoryStore_write_appends (m : MemoryStore) (entry : AuditEntry) :
  1 <= maxSize m ->
  exists dropped kept,
    mem_entries m = dropped ++ kept
    /\ mem_entries (MemoryStore_write m entry) = kept ++ [entry].
Proof.
  intros HN.
  destruct (MemoryStore_write_last_n m entry) as [He _]; [lia|].
  set (k := (List.length (mem_entries m ++ [entry])
             - Z.to_nat (maxSize m))%nat) in *.
  exists (firstn k (mem_entries m)), (skipn k (mem_entries m)).
  split; [now rewrite firstn_skipn|].
  rewrite He. unfold last_n. fold k. rewrite skipn_app.
  replace (k - List.length (mem_entries m))%nat with 0%nat; [reflexivity|].
  unfold k. rewrite length_app. simpl. lia.
Qed.

End QueryMore.

(** ** More about the configuration and the logger *)

Section ConfigMore.

Variable env : ProcessEnv.

(** X14.  Every compliance preset turns the hash chain on and keeps the
    retention between 90 and 2190 days, unless the overrides say otherwise;
    what a preset does not set (sinks, service identity, signing key,
    store, buffering, stack traces, structured logging) is what
    [mergeAuditConfig] gives for the overrides alone. *)
Theorem withCompliance_presets (compliance : Compliance)
        (overrides : PartialAuditConfig) :
  let cfg := withCompliance env compliance overrides in
  let plain := mergeAuditConfig env overrides in
  hashChain cfg = spread true (p_hashChain overrides)
  /\ (p_retentionDays overrides = None -> 90 <= retentionDays cfg <= 2190)
  /\ sinks cfg = sinks plain
  /\ serviceName cfg = serviceName plain
  /\ serviceVersion cfg = serviceVersion plain
  /\ environment cfg = environment plain
  /\ signingKey cfg = signingKey plain
  /\ store cfg = store plain
  /\ bufferSize cfg = bufferSize plain
  /\ flushInterval cfg = flushInterval plain
  /\ includeStackTraces cfg = includeStackTraces plain
  /\ enableStructured cfg = enableStructured plain.
Proof.
  unfold withCompliance, mergeAuditConfig. simpl.
  split; [now destruct compliance|].
  split; [|now destruct compliance].
  intros ->. destruct compliance; simpl; lia.
Qed.


Variable digest : HashAlgorithm -> string -> string.

Context {S : Type} {store_impl : AuditStore S}.

(** X16.  [setConfig] overrides the current configuration with the
    properties supplied and nothing else: no property falls back to its
    default, and [setConfig({})] leaves the logger as it is. *)
Theorem setConfig_overrides_current
        (lg : AuditLogger S) (config : PartialAuditConfig) :
  lg_config (setConfig env digest lg config)
  = spread_config (lg_config lg) config
  /\ setConfig env digest lg empty_partial = lg.
Proof.
  assert (H : forall p,
             mergeAuditConfig env (spread_partial (as_partial (lg_config lg)) p)
             = spread_config (lg_config lg) p).
  { intros p. unfold mergeAuditConfig, spread_config, spread_partial,
      as_partial. cbn.
    destruct (lg_config lg), p; cbn.
    f_equal; cbv [spread spread_opt];
      repeat match goal with
             | |- context [match ?o with _ => _ end] => is_var o; destruct o
             end; reflexivity. }
  split.
  - unfold setConfig. cbn. apply H.
  - unfold setConfig. rewrite H. destruct lg as [cfg c s w]. cbn.
    f_equal. now destruct cfg.
Qed.

End ConfigMore.

Section LoggerMore.

Variable env : ProcessEnv.
Variable digest : HashAlgorithm -> string -> string.
Variable JSON_stringify : HashData -> string.
Variable JSON_stringify_entry : AuditEntry -> string.
Variable io_outcome : Trace -> IOEvent -> Settled unit.

Abbreviation log_ :=
  (log digest JSON_stringify JSON_stringify_entry io_outcome).
Abbreviation log_all_ :=
  (log_all digest JSON_stringify JSON_stringify_entry io_outcome).
Abbreviation failure_ :=
  (failure digest JSON_stringify JSON_stringify_entry io_outcome).

Section AnyStore.

Context {S : Type} {store_impl : AuditStore S}.

(** What [log] resolves with. *)
Lemma log_fulfilled (lg : AuditLogger S) (t : Trace) (uuid : string)
      (now : Z) (ev : AuditEvent) (st' : AuditLogger S * Trace)
      (entry : AuditEntry) :
  log_ uuid now ev (lg, t) = (st', Fulfilled entry) ->
  id entry = uuid /\ timestamp entry = now
  /\ event entry = normalize_event ev
  /\ (lg_chain lg = None -> chain entry = None).
Proof.
  unfold log, await, attach_chain, write_store, write_sinks, resolve.
  intros H.
  destruct (lg_chain lg) as [c|]; simpl in H;
    destruct (store_write _ _) as [s' [u|r]]; simpl in H;
    try discriminate H;
    rewrite SinkWriter_write_settles in H; simpl in H;
    injection H as <- <-; repeat split; congruence.
Qed.

Lemma errorInfo_some (includeStack : bool) (err : option ErrorArg)
      (info : ErrorInfo) :
  errorInfo includeStack err = Some info ->
  error_code info = None
  /\ ((exists message stack,
          err = Some (error_object message stack)
          /\ error_message info = Some message
          /\ error_stack info = (if includeStack then stack else None))
      \/ (exists s,
             err = Some (error_string s) /\ s <> EmptyString
             /\ error_message info = Some s
             /\ error_stack info = None)).
Proof.
  destruct err as [[message stack|s]|]; simpl.
  - intros [= <-]. split; [reflexivity|left]. now exists message, stack.
  - destruct s as [|ch s]; [discriminate|]. intros [= <-].
    split; [reflexivity|right]. exists (String ch s).
    repeat split. discriminate.
  - discriminate.
Qed.


(** X18.  When the store rejects the write, [log] rejects with the reason
    of the store and delivers to no sink, but the chain has advanced: the
    sequence number of the entry is used up. *)
Theorem log_rejected_write_advances_chain
        (lg : AuditLogger S) (t : Trace) (uuid : string) (now : Z)
        (ev : AuditEvent) (c : HashChain) (reason : string) :
  let raw := built_entry (lg_config lg) (uuid, now, ev) in
  let entry := set_chain raw (fst (addEntry digest JSON_stringify c raw)) in
  lg_chain lg = Some c ->
  snd (store_write (lg_store lg) entry) = Rejected reason ->
  snd (log_ uuid now ev (lg, t)) = Rejected reason
  /\ snd (fst (log_ uuid now ev (lg, t))) = t
  /\ option_map getState (lg_chain (fst (fst (log_ uuid now ev (lg, t)))))
     = Some (hash (fst (addEntry digest JSON_stringify c raw)),
             chain_sequence c + 1).
Proof.
  intros raw entry Hc Hw. subst entry raw.
  unfold log, await, attach_chain, write_store, write_sinks, resolve.
  rewrite Hc. simpl in *.
  destruct (store_write (lg_store lg) _) as [s' r]. simpl in Hw.
  subst r. repeat split.
Qed.

(** X19.  An entry logged while chaining is off carries no chain data, and
    no list that contains it is valid for a chain. *)
Theorem unchained_entry_never_verifies
        (lg : AuditLogger S) (t : Trace) (uuid : string) (now : Z)
        (ev : AuditEvent) (st' : AuditLogger S * Trace) (entry : AuditEntry)
        (c : HashChain) (es : list AuditEntry) :
  lg_chain lg = None ->
  log_ uuid now ev (lg, t) = (st', Fulfilled entry) ->
  In entry es ->
  chain entry = None /\ valid (verifyChain digest c es) = false.
Proof.
  intros Hoff Hlog Hin.
  apply log_fulfilled in Hlog. destruct Hlog as (_ & _ & _ & Hnone).
  specialize (Hnone Hoff). split; [assumption|].
  destruct (valid (verifyChain digest c es)) eqn:Hv; [|reflexivity].
  destruct (verifyChain_valid_linked digest c es Hv) as (prev & n & Hl & _).
  apply linked_from_chained in Hl. rewrite Forall_forall in Hl.
  exfalso. apply (Hl entry); [|assumption].
  apply (Permutation_in entry (Array_sort_is_Permutation by_sequence es) Hin).
Qed.

End AnyStore.

Section OverMemoryStore.

(** One [log] of a chaining logger over a memory store. *)
Lemma log_memory_step (lg : AuditLogger MemoryStore) (t : Trace)
      (uuid : string) (now : Z) (ev : AuditEvent) (c : HashChain) :
  lg_chain lg = Some c ->
  let raw := built_entry (lg_config lg) (uuid, now, ev) in
  let entry := set_chain raw (fst (addEntry digest JSON_stringify c raw)) in
  log_ uuid now ev (lg, t)
  = ((mkLogger (lg_config lg)
               (Some (snd (addEntry digest JSON_stringify c raw)))
               (MemoryStore_write (lg_store lg) entry)
               (lg_sinkWriter lg),
      t ++ map (fun sink => delivery JSON_stringify_entry sink entry)
               (sw_sinks (lg_sinkWriter lg))),
     Fulfilled entry).
Proof.
  intros Hc raw entry. subst entry raw.
  unfold log, await, attach_chain, write_store, write_sinks, resolve.
  rewrite Hc. simpl. rewrite SinkWriter_write_settles. reflexivity.
Qed.

Lemma log_all_memory (calls : list (string * Z * AuditEvent)) :
  forall (lg : AuditLogger MemoryStore) (t : Trace) (c : HashChain),
    lg_chain lg = Some c ->
    let raws := map (built_entry (lg_config lg)) calls in
    let es := fst (chain_entries digest JSON_stringify c raws) in
    exists t',
      log_all_ calls (lg, t)
      = ((mkLogger (lg_config lg)
                   (Some (snd (chain_entries digest JSON_stringify c raws)))
                   (write_all (lg_store lg) es)
                   (lg_sinkWriter lg),
          t'),
         map Fulfilled es).
Proof.
  induction calls as [|[[uuid now] ev] calls IH]; intros lg t c Hc.
  - exists t. simpl. destruct lg; simpl in *. now subst.
  - cbn [log_all map]. rewrite (log_memory_step lg t uuid now ev c Hc).
    cbv beta iota zeta.
    set (raw := built_entry (lg_config lg) (uuid, now, ev)).
    set (lg1 := mkLogger _ _ _ _).
    destruct (IH lg1 (t ++ map (fun sink => delivery JSON_stringify_entry sink
                                   (set_chain raw
                                      (fst (addEntry digest JSON_stringify
                                                     c raw))))
                             (sw_sinks (lg_sinkWriter lg)))
                 (snd (addEntry digest JSON_stringify c raw)) eq_refl)
      as (t' & Hall).
    exists t'. unfold Trace in *. rewrite Hall, chain_entries_cons.
    reflexivity.
Qed.

(** X20.  A logger with chaining on and a memory store of capacity
    [N >= 1]: every [log] call fulfils; the store ends up with the last
    [N] entries logged (all of them when there are fewer); and what the
    store holds is valid for [verifyChain] of the logger in any order,
    also after older entries were evicted. *)
Theorem logged_entries_verify (config : PartialAuditConfig) (N : Z)
        (calls : list (string * Z * AuditEvent)) (t0 : Trace) :
  hashChain (mergeAuditConfig env config) = true ->
  1 <= N ->
  let lg0 := new_AuditLogger env digest config (new_MemoryStore (Some N)) in
  let lg := fst (fst (log_all_ calls (lg0, t0))) in
  let settled := snd (log_all_ calls (lg0, t0)) in
  List.length settled = List.length calls
  /\ Forall (fun r => exists entry, r = Fulfilled entry) settled
  /\ Array_length (mem_entries (lg_store lg))
     = Z.min N (Array_length calls)
  /\ forall es',
      Permutation (mem_entries (lg_store lg)) es' ->
      logger_verifyChain digest lg es' = verify_ok.
Proof.
  intros Hon HN lg0 lg settled.
  set (cfg := mergeAuditConfig env config) in *.
  set (c0 := new_HashChain digest (hashAlgorithm cfg)).
  assert (Hc0 : lg_chain lg0 = Some c0).
  { unfold lg0, new_AuditLogger. fold cfg. now rewrite Hon. }
  destruct (log_all_memory calls lg0 t0 c0 Hc0) as (t' & Hall).
  cbv zeta in Hall.
  set (raws := map (built_entry (lg_config lg0)) calls) in *.
  set (es := fst (chain_entries digest JSON_stringify c0 raws)) in *.
  assert (Hlen : List.length es = List.length calls).
  { unfold es. rewrite (chain_entries_length digest JSON_stringify).
    unfold raws. apply length_map. }
  destruct (MemoryStore_keeps_most_recent N es HN) as [Hstore _].
  unfold lg, settled. rewrite Hall. cbn [fst snd lg_store].
  change (lg_store lg0) with (new_MemoryStore (Some N)).
  rewrite Hstore. repeat split.
  - now rewrite length_map.
  - apply Forall_forall. intros r Hr. apply in_map_iff in Hr.
    destruct Hr as (entry & <- & _). now exists entry.
  - unfold Array_length. rewrite last_n_length, Hlen. lia.
  - intros es' Hperm. unfold logger_verifyChain. cbn [lg_chain].
    unfold last_n in *.
    destruct (linked_from_skipn
                (List.length es - Z.to_nat N) es _ _
                (chain_entries_linked digest JSON_stringify raws c0))
      as (prev' & Hl & Hk).
    apply linked_from_verifyChain with (1 := Hl); [|exact Hperm].
    destruct (List.length es - Z.to_nat N)%nat as [|k];
      [right|left; simpl; lia].
    rewrite (Hk eq_refl), chain_entries_algorithm. reflexivity.
Qed.

End OverMemoryStore.

End LoggerMore.

(** ** The file store and the export *)

Section StringFacts.

Lemma append_nil_r (s : string) : (s ++ "")%string = s.
Proof. induction s as [|c s IH]; simpl; congruence. Qed.

Lemma append_assoc (a b c : string) :
  ((a ++ b) ++ c)%string = (a ++ (b ++ c))%string.
Proof. induction a as [|x a IH]; simpl; congruence. Qed.

Lemma append_length (a b : string) :
  String.length (a ++ b) = (String.length a + String.length b)%nat.
Proof. induction a as [|x a IH]; simpl; congruence. Qed.

Lemma append_inv_tail (t : string) :
  forall a b, (a ++ t)%string = (b ++ t)%string -> a = b.
Proof.
  induction a as [|x a IH]; intros [|y b] H; simpl in H.
  - reflexivity.
  - apply (f_equal String.length) in H. simpl in H.
    rewrite append_length in H. lia.
  - apply (f_equal String.length) in H. simpl in H.
    rewrite append_length in H. lia.
  - injection H as -> H. f_equal. now apply IH.
Qed.

Lemma double_quotes_inj :
  forall a b, double_quotes a = double_quotes b -> a = b.
Proof.
  induction a as [|x a IH]; intros [|y b] H; simpl in H.
  - reflexivity.
  - destruct (Ascii.eqb y double_quote); discriminate.
  - destruct (Ascii.eqb x double_quote); discriminate.
  - destruct (Ascii.eqb_spec x double_quote) as [Hx|Hx],
      (Ascii.eqb_spec y double_quote) as [Hy|Hy].
    + injection H as H. subst. f_equal. now apply IH.
    + injection H as H1 H2. congruence.
    + injection H as H1 H2. congruence.
    + injection H as -> H. f_equal. now apply IH.
Qed.

(** X21.  The quoting of the CSV export loses nothing: two values with the
    same quoted field are the same value. *)
Theorem csv_field_inj (a b : string) : csv_field a = csv_field b -> a = b.
Proof.
  unfold csv_field. intros H. injection H as H.
  apply append_inv_tail in H. now apply double_quotes_inj.
Qed.

End StringFacts.

Section FileStoreMore.

Variable JSON_stringify_entry : AuditEntry -> string.
Variable JSON_parse_entry : string -> option AuditEntry.
Variable io_outcome : Trace -> IOEvent -> Settled unit.
Variable fs_read : Trace -> string -> option (Settled string).

Abbreviation lines := (lines_of JSON_stringify_entry).
Abbreviation flush := (FileStore_flush JSON_stringify_entry io_outcome).
Abbreviation write := (FileStore_write JSON_stringify_entry io_outcome).
Abbreviation run := (FileStore_run JSON_stringify_entry io_outcome).
Abbreviation close := (FileStore_close JSON_stringify_entry io_outcome).

Lemma lines_of_app (a b : list AuditEntry) :
  lines (a ++ b) = (lines a ++ lines b)%string.
Proof.
  induction a as [|e a IH]; simpl; [reflexivity|].
  now rewrite IH, !append_assoc.
Qed.

Lemma jsonl_lines (es : list AuditEntry) :
  es <> [] -> jsonl JSON_stringify_entry es = lines es.
Proof.
  unfold jsonl. induction es as [|e es IH]; intros Hne; [contradiction|].
  destruct es as [|e' es].
  - reflexivity.
  - change (Array_join (map JSON_stringify_entry (e :: e' :: es)) newline)
      with (JSON_stringify_entry e ++ newline
            ++ Array_join (map JSON_stringify_entry (e' :: es)) newline)%string.
    rewrite !append_assoc, IH by discriminate. reflexivity.
Qed.

Lemma appended_snoc (path p chunk : string) (t : Trace) :
  appended path (t ++ [io_appendFile p chunk])
  = (appended path t
     ++ (if String.eqb p path then chunk else EmptyString))%string.
Proof.
  induction t as [|ev t IH]; simpl.
  - destruct (String.eqb p path); [apply append_nil_r|reflexivity].
  - destruct ev; try assumption.
    destruct (String.eqb path0 path); [|assumption].
    now rewrite IH, append_assoc.
Qed.

(** What [flush] does, however the append settles. *)
Lemma flush_effect (f : FileStore) (t : Trace) :
  fs_buffer (fst (fst (flush (f, t)))) = []
  /\ fs_filePath (fst (fst (flush (f, t)))) = fs_filePath f
  /\ fs_bufferSize (fst (fst (flush (f, t)))) = fs_bufferSize f
  /\ fs_flushTimer (fst (fst (flush (f, t)))) = fs_flushTimer f
  /\ appended (fs_filePath f) (snd (fst (flush (f, t))))
     = (appended (fs_filePath f) t ++ lines (fs_buffer f))%string
  /\ (fs_buffer f = [] -> flush (f, t) = ((f, t), Fulfilled tt)).
Proof.
  unfold FileStore_flush. destruct (fs_buffer f) as [|e es] eqn:Hb.
  - simpl. rewrite Hb, append_nil_r. now repeat split.
  - unfold perform. cbn [fst snd set_buffer fs_buffer fs_filePath
                         fs_bufferSize fs_flushTimer].
    rewrite appended_snoc, String.eqb_refl, jsonl_lines by discriminate.
    repeat split. discriminate.
Qed.

Lemma write_effect (entry : AuditEntry) (f : FileStore) (t : Trace) :
  let f' := fst (fst (write entry (f, t))) in
  let t' := snd (fst (write entry (f, t))) in
  fs_filePath f' = fs_filePath f
  /\ fs_bufferSize f' = fs_bufferSize f
  /\ (appended (fs_filePath f) t' ++ lines (fs_buffer f'))%string
     = (appended (fs_filePath f) t ++ lines (fs_buffer f ++ [entry]))%string
  /\ (Array_length (fs_buffer f') < fs_bufferSize f \/ fs_buffer f' = []).
Proof.
  unfold FileStore_write.
  cbn [set_buffer fs_buffer fs_bufferSize].
  destruct (Z.geb_spec (Array_length (fs_buffer f ++ [entry]))
                       (fs_bufferSize f)) as [Hge|Hlt].
  - destruct (flush_effect (set_buffer f (fs_buffer f ++ [entry])) t)
      as (Hb & Hp & Hs & _ & Ha & _).
    cbv zeta. rewrite Hb, Hp, Hs. cbn [set_buffer fs_filePath fs_buffer] in *.
    rewrite Ha. simpl. rewrite append_nil_r. repeat split. now right.
  - cbn. repeat split. left. lia.
Qed.

(** After any writes and timer flushes, the text handed to [appendFile]
    followed by the lines of the buffer is the text before followed by the
    lines of the entries written; and after a step the buffer holds fewer
    than [bufferSize] entries, or none. *)
Lemma run_effect (ops : list FileStoreOp) :
  forall (f : FileStore) (t : Trace),
    let f' := fst (fst (run ops (f, t))) in
    let t' := snd (fst (run ops (f, t))) in
    fs_filePath f' = fs_filePath f
    /\ fs_bufferSize f' = fs_bufferSize f
    /\ (appended (fs_filePath f) t' ++ lines (fs_buffer f'))%string
       = (appended (fs_filePath f) t
          ++ lines (fs_buffer f ++ written_entries ops))%string
    /\ (ops <> [] ->
        Array_length (fs_buffer f') < fs_bufferSize f \/ fs_buffer f' = []).
Proof.
  induction ops as [|op ops IH]; intros f t.
  - simpl. rewrite app_nil_r. repeat split. contradiction.
  - cbn [FileStore_run].
    assert (Hstep :
              let st1 := fst (match op with
                              | op_write entry => write entry (f, t)
                              | op_timer => flush (f, t)
                              end) in
              fs_filePath (fst st1) = fs_filePath f
              /\ fs_bufferSize (fst st1) = fs_bufferSize f
              /\ (appended (fs_filePath f) (snd st1)
                  ++ lines (fs_buffer (fst st1)))%string
                 = (appended (fs_filePath f) t
                    ++ lines (fs_buffer f ++ written_entries [op]))%string
              /\ (Array_length (fs_buffer (fst st1)) < fs_bufferSize f
                  \/ fs_buffer (fst st1) = [])).
    { destruct op as [entry|].
      - apply write_effect.
      - destruct (flush_effect f t) as (Hb & Hp & Hs & _ & Ha & _).
        cbv zeta. rewrite Hb, Hp, Hs, Ha. cbn [written_entries flat_map].
        rewrite !app_nil_r. cbn [lines_of]. rewrite append_nil_r.
        repeat split. now right. }
    cbv zeta in Hstep.
    destruct (match op with
              | op_write entry => write entry (f, t)
              | op_timer => flush (f, t)
              end) as [[f1 t1] r].
    cbn [fst snd] in *. destruct Hstep as (Hp & Hs & Ha & Hb).
    specialize (IH f1 t1).
    destruct (run ops (f1, t1)) as [[f2 t2] rs] eqn:Hall.
    cbn [fst snd] in *. destruct IH as (Hp2 & Hs2 & Ha2 & Hb2).
    rewrite Hp, Hs in *. repeat split; try assumption.
    + rewrite Ha2, lines_of_app, <- append_assoc, Ha.
      rewrite append_assoc, <- lines_of_app, <- app_assoc.
      change (op :: ops) with ([op] ++ ops).
      unfold written_entries. now rewrite flat_map_app.
    + intros _. destruct ops as [|op' ops].
      * simpl in Hall. injection Hall as <- <- <-. exact Hb.
      * apply Hb2. discriminate.
Qed.

(** X22.  A failed append loses the buffer: when [write] rejects, the
    buffer is empty afterwards, so that a later flush appends nothing and
    the entries are not tried again. *)
Theorem FileStore_rejected_write_drops_buffer
        (entry : AuditEntry) (f : FileStore) (t : Trace) (reason : string) :
  snd (write entry (f, t)) = Rejected reason ->
  fs_buffer (fst (fst (write entry (f, t)))) = []
  /\ flush (fst (write entry (f, t)))
     = (fst (write entry (f, t)), Fulfilled tt).
Proof.
  unfold FileStore_write. cbn [set_buffer fs_buffer fs_bufferSize].
  destruct (_ >=? _); [|discriminate].
  intros _.
  destruct (flush_effect (set_buffer f (fs_buffer f ++ [entry])) t)
    as (Hb & _).
  split; [exact Hb|].
  destruct (flush (set_buffer f (fs_buffer f ++ [entry]), t))
    as [[f' t'] r].
  cbn [fst snd] in *.
  now destruct (flush_effect f' t') as (_ & _ & _ & _ & _ & ->).
Qed.

(** X23.  [close] stops the timer and leaves the buffer empty, whether or
    not the final append succeeds, and closing again does nothing. *)
Theorem FileStore_close_twice (f : FileStore) (t : Trace) :
  fs_flushTimer (fst (fst (close (f, t)))) = false
  /\ fs_buffer (fst (fst (close (f, t)))) = []
  /\ close (fst (close (f, t))) = (fst (close (f, t)), Fulfilled tt).
Proof.
  unfold FileStore_close.
  set (f0 := mkFileStore _ _ _ _ false).
  destruct (flush_effect f0 t) as (Hb & _ & _ & Ht & _).
  destruct (flush (f0, t)) as [[f' t'] r]. cbn [fst snd] in *.
  repeat split; try assumption.
  destruct (flush_effect f' t') as (_ & _ & _ & _ & _ & Hnoop).
  destruct f' as [p b s i tm]. cbn in *. subst. now apply Hnoop.
Qed.

Lemma flush_settles (f : FileStore) (t : Trace) :
  (forall t' ev, io_outcome t' ev = Fulfilled tt) ->
  snd (flush (f, t)) = Fulfilled tt.
Proof.
  intros Hok. unfold FileStore_flush, perform.
  destruct (fs_buffer f); [reflexivity|]. apply Hok.
Qed.

(** X24.  However the appends settle and whenever the timer fires, the
    buffering neither duplicates nor reorders entries and [close] leaves
    none behind: after any writes and timer flushes followed by [close],
    the text handed to [appendFile] is the text before followed by the
    lines of the entries that were buffered and of the entries written, in
    that order, and the buffer is empty; after each step the buffer holds
    fewer than [bufferSize] entries, or none. *)
Theorem FileStore_close_flushes_all (ops : list FileStoreOp)
        (f : FileStore) (t : Trace) :
  let written := fst (run ops (f, t)) in
  let closed := fst (close written) in
  fs_buffer (fst closed) = []
  /\ appended (fs_filePath f) (snd closed)
     = (appended (fs_filePath f) t
        ++ lines (fs_buffer f ++ written_entries ops))%string
  /\ (ops <> [] ->
      Array_length (fs_buffer (fst written)) < fs_bufferSize f
      \/ fs_buffer (fst written) = []).
Proof.
  intros written closed.
  destruct (run_effect ops f t) as (Hp & _ & Ha & Hb).
  fold written in Hp, Ha, Hb.
  destruct written as [f1 t1]. cbn [fst snd] in *.
  unfold closed, FileStore_close.
  set (f0 := mkFileStore _ _ _ _ false).
  destruct (flush_effect f0 t1) as (Hb0 & _ & _ & _ & Ha0 & _).
  repeat split; try assumption.
  change (fs_filePath f0) with (fs_filePath f1) in Ha0.
  change (fs_buffer f0) with (fs_buffer f1) in Ha0.
  rewrite Hp in Ha0. now rewrite Ha0, Ha.
Qed.

Lemma append_empty (a b : string) :
  (a ++ b)%string = EmptyString -> b = EmptyString.
Proof. destruct a; simpl; [auto|discriminate]. Qed.

Lemma trimEnd_newline (s : string) : trimEnd (s ++ newline) = trimEnd s.
Proof.
  induction s as [|c s IH]; [reflexivity|].
  cbn [append trimEnd]. now rewrite IH.
Qed.

Lemma trimEnd_app (a b : string) :
  trimEnd b <> EmptyString -> trimEnd (a ++ b) = (a ++ trimEnd b)%string.
Proof.
  intros Hb. induction a as [|c a IH]; [reflexivity|].
  cbn [append trimEnd]. rewrite IH.
  destruct (a ++ trimEnd b)%string eqn:E; [|reflexivity].
  now apply append_empty in E.
Qed.

Lemma split_no_newline (s : string) :
  no_newline s = true -> String_split s "010"%char = [s].
Proof.
  induction s as [|c s IH]; [reflexivity|].
  cbn [no_newline String_split]. intros H.
  apply andb_true_iff in H. destruct H as [Hc Hs].
  apply negb_true_iff in Hc. rewrite Hc, (IH Hs). reflexivity.
Qed.

Lemma split_line (a b : string) :
  no_newline a = true ->
  String_split (a ++ newline ++ b) "010"%char
  = a :: String_split b "010"%char.
Proof.
  induction a as [|c a IH]; intros H.
  - reflexivity.
  - cbn [no_newline] in H. apply andb_true_iff in H. destruct H as [Hc Hs].
    apply negb_true_iff in Hc.
    cbn [append String_split]. rewrite Hc.
    change (a ++ String "010" b)%string with (a ++ newline ++ b)%string.
    now rewrite (IH Hs).
Qed.

(** Lines joined by line feeds: the text starts with something that is not
    white space, [trimEnd] leaves it alone, and splitting it at the line
    feeds gives the lines back. *)
Lemma join_one_lines (ss : list string) :
  ss <> [] ->
  Forall one_line ss ->
  (exists c s', Array_join ss newline = String c s' /\ is_space c = false)
  /\ trimEnd (Array_join ss newline) = Array_join ss newline
  /\ String_split (Array_join ss newline) "010"%char = ss.
Proof.
  induction ss as [|s ss IH]; intros Hne Hall; [contradiction|].
  inversion Hall as [|? ? (Hnl & c & s' & -> & Hc & Htrim) Hrest]; subst.
  destruct ss as [|s2 ss].
  - cbn [Array_join]. repeat split.
    + now exists c, s'.
    + exact Htrim.
    + now apply split_no_newline.
  - destruct (IH ltac:(discriminate) Hrest)
      as ((c2 & s2' & Hj & Hc2) & Ht & Hs).
    change (Array_join (String c s' :: s2 :: ss) newline)
      with (String c s' ++ newline ++ Array_join (s2 :: ss) newline)%string.
    repeat split.
    + now exists c, (s' ++ newline ++ Array_join (s2 :: ss) newline)%string.
    + assert (Hrest' : trimEnd (newline ++ Array_join (s2 :: ss) newline)
                       = (newline ++ Array_join (s2 :: ss) newline)%string).
      { rewrite trimEnd_app; rewrite Ht; [reflexivity|].
        rewrite Hj. discriminate. }
      rewrite trimEnd_app; rewrite Hrest'; [reflexivity|discriminate].
    + rewrite split_line by assumption. now rewrite Hs.
Qed.

(** The lines that [flush] and the JSONL export write are read back as the
    entries they were written for, when each serialised entry is one line
    that parses back to the entry. *)
Lemma read_entries_jsonl (es : list AuditEntry) :
  Forall (fun e =>
            one_line (JSON_stringify_entry e)
            /\ JSON_parse_entry (JSON_stringify_entry e) = Some e) es ->
  read_entries JSON_parse_entry (jsonl JSON_stringify_entry es) = es.
Proof.
  intros Hall. destruct es as [|e0 es0]; [reflexivity|].
  set (es := e0 :: es0) in *.
  assert (Hlines : Forall one_line (map JSON_stringify_entry es)).
  { apply Forall_map. eapply Forall_impl; [|exact Hall]. now intros e [H _]. }
  destruct (join_one_lines (map JSON_stringify_entry es)
              ltac:(discriminate) Hlines)
    as ((c & s' & Hj & Hc) & Ht & Hs).
  unfold read_entries, jsonl, String_trim.
  set (J := Array_join (map JSON_stringify_entry es) newline) in *.
  assert (Htrim : trimEnd (trimStart (J ++ newline)) = J).
  { rewrite Hj. cbn [append trimStart]. rewrite Hc.
    change (String c (s' ++ newline)) with (String c s' ++ newline)%string.
    now rewrite <- Hj, trimEnd_newline. }
  rewrite Htrim, Hs. clear Htrim Hs Ht Hj J Hlines.
  induction Hall as [|e l (Hone & Hparse) Hall IH]; [reflexivity|].
  destruct Hone as (_ & c1 & s1 & Hs1 & _).
  cbn [map filter]. rewrite Hs1 at 1. cbn [truthy_string flat_map].
  rewrite Hparse, IH. reflexivity.
Qed.

Lemma MemoryStore_query_entries (m1 m2 : MemoryStore) (query : AuditQuery) :
  mem_entries m1 = mem_entries m2 ->
  MemoryStore_query m1 query = MemoryStore_query m2 query.
Proof. unfold MemoryStore_query. now intros ->. Qed.

Lemma temporary_store_keeps_all (es : list AuditEntry) :
  mem_entries (write_all (new_MemoryStore (Some (Array_length es))) es) = es.
Proof.
  destruct es as [|e es]; [reflexivity|].
  destruct (MemoryStore_keeps_most_recent
              (Array_length (e :: es)) (e :: es)) as [H _].
  - unfold Array_length. simpl. lia.
  - rewrite H. unfold last_n, Array_length.
    replace (_ - _)%nat with 0%nat by lia. reflexivity.
Qed.

(** X25.  The memory store that [FileStore.query] builds from the entries
    it has read holds every one of them, also when there are none or one:
    the answer is that of a memory store with exactly these entries. *)
Theorem FileStore_query_keeps_all_read (es : list AuditEntry)
        (query : AuditQuery) :
  mem_entries (write_all (new_MemoryStore (Some (Array_length es))) es) = es
  /\ query_entries es query
     = MemoryStore_query (mkMemoryStore es (Array_length es)) query.
Proof.
  split; [apply temporary_store_keeps_all|].
  unfold query_entries. apply MemoryStore_query_entries.
  apply temporary_store_keeps_all.
Qed.

(** X26.  Read your writes.  For a store with an empty buffer and a file
    to which nothing was appended yet, when appends succeed, the file holds
    what was appended, and each entry is serialised to one line that parses
    back to it: a query after any writes and timer flushes answers from
    exactly the entries written, whether they were flushed or still
    buffered. *)
Theorem FileStore_query_reads_writes
        (f : FileStore) (t : Trace) (ops : list FileStoreOp)
        (query : AuditQuery) :
  let es := written_entries ops in
  fs_buffer f = [] ->
  appended (fs_filePath f) t = EmptyString ->
  (forall t' ev, io_outcome t' ev = Fulfilled tt) ->
  (forall t',
      fs_read t' (fs_filePath f)
      = match appended (fs_filePath f) t' with
        | EmptyString => None
        | content => Some (Fulfilled content)
        end) ->
  Forall (fun e =>
            one_line (JSON_stringify_entry e)
            /\ JSON_parse_entry (JSON_stringify_entry e) = Some e) es ->
  snd (FileStore_query JSON_stringify_entry JSON_parse_entry io_outcome
                       fs_read query (fst (run ops (f, t))))
  = Fulfilled (MemoryStore_query (mkMemoryStore es (Array_length es)) query).
Proof.
  intros es Hbuf Hnew Hok Hread Hall.
  destruct (run_effect ops f t) as (Hp & _ & Ha & _).
  fold es in Ha.
  destruct (fst (run ops (f, t))) as [f1 t1]. cbn [fst snd] in *.
  rewrite Hbuf, Hnew in Ha. cbn [app append] in Ha.
  unfold FileStore_query, await.
  pose proof (flush_settles f1 t1 Hok) as Hr.
  destruct (flush_effect f1 t1) as (_ & Hp2 & _ & _ & Ha2 & _).
  destruct (flush (f1, t1)) as [[f2 t2] r]. cbn [fst snd] in *. subst r.
  rewrite Hp2, Hp, Hread. rewrite Hp in Ha2. rewrite Ha2, Ha.
  assert (Hq : query_entries es query
               = MemoryStore_query (mkMemoryStore es (Array_length es))
                                   query).
  { unfold query_entries. apply MemoryStore_query_entries.
    apply temporary_store_keeps_all. }
  clearbody es. destruct es as [|e es].
  - cbn [lines_of]. cbn [snd]. now rewrite Hq.
  - rewrite <- (jsonl_lines (e :: es)) by discriminate.
    pose proof (read_entries_jsonl (e :: es) Hall) as Hback.
    destruct (jsonl JSON_stringify_entry (e :: es)) as [|ch rest] eqn:Hj.
    + rewrite jsonl_lines in Hj by discriminate. cbn [lines_of] in Hj.
      inversion Hall as [|? ? ((_ & c & s' & Hs & _) & _) _]; subst.
      rewrite Hs in Hj. discriminate.
    + cbn [snd]. now rewrite Hback, Hq.
Qed.

End FileStoreMore.

Section ExportMore.

Variable JSON_stringify_entry : AuditEntry -> string.
Variable JSON_parse_entry : string -> option AuditEntry.
Variable JSON_stringify_pretty : list AuditEntry -> string.
Variable toISOString : Z -> string.
Variable fs_writeFile : string -> string -> Settled unit.

Abbreviation content_of :=
  (export_content JSON_stringify_entry JSON_stringify_pretty toISOString).
Abbreviation export_ :=
  (exportEntries JSON_stringify_entry JSON_stringify_pretty toISOString
                 fs_writeFile).

(** X27.  [exportEntries] writes one file, settling as the write does, for
    the formats "json", "jsonl" and "csv", and for any other format rejects
    with "Unknown export format" and writes nothing; the export of the
    logger without a format is the JSON export. *)
Theorem exportEntries_formats (es : list AuditEntry)
        (filePath format : string) :
  (format <> "json" -> format <> "jsonl" -> format <> "csv" ->
   export_ es filePath format
   = (None, Rejected ("Unknown export format: " ++ format)%string))
  /\ (format = "json" \/ format = "jsonl" \/ format = "csv" ->
      exists content,
        content_of es format = inr content
        /\ export_ es filePath format
           = (Some (filePath, content), fs_writeFile filePath content))
  /\ logger_export JSON_stringify_entry JSON_stringify_pretty toISOString
                   fs_writeFile filePath es None
     = (Some (filePath, JSON_stringify_pretty es),
        fs_writeFile filePath (JSON_stringify_pretty es)).
Proof.
  unfold logger_export, exportEntries, export_content. repeat split.
  - intros H1 H2 H3.
    apply String.eqb_neq in H1, H2, H3. now rewrite H1, H2, H3.
  - intros [-> | [-> | ->]]; eexists; split; reflexivity.
Qed.

(** X28.  The JSONL export can be read back: when each entry is serialised
    to one line that parses back to it, the lines of the content exported
    for the format "jsonl" parse, as [FileStore.query] parses a file, to
    the entries exported, in order; for no entries the content is a single
    line feed. *)
Theorem jsonl_export_reads_back (es : list AuditEntry) :
  Forall (fun e =>
            one_line (JSON_stringify_entry e)
            /\ JSON_parse_entry (JSON_stringify_entry e) = Some e) es ->
  exists content,
    content_of es "jsonl" = inr content
    /\ read_entries JSON_parse_entry content = es
    /\ (es = [] -> content = newline).
Proof.
  intros Hall. exists (jsonl JSON_stringify_entry es). repeat split.
  - now apply read_entries_jsonl.
  - now intros ->.
Qed.

End ExportMore.

(** ** Examples for the statements above *)

(** The three sample entries are valid: they are linked. *)
Lemma verifyChain_valid_iff_witness :
  valid (verifyChain Fixture.digest (new_HashChain Fixture.digest sha256)
                     Fixture.three) = true.
Proof.
  destruct (verifyChain_valid_iff
              Fixture.digest (new_HashChain Fixture.digest sha256)
              Fixture.three) as [[_ Hvalid] _].
  apply Hvalid. reflexivity.
Defined.

(** An entry without chain data in front of the three sample entries. *)
Lemma verifyChain_rejects_missing_chain_data_witness :
  valid (verifyChain Fixture.digest (new_HashChain Fixture.digest sha256)
                     (Fixture.raw "z" 5 "probe" :: Fixture.three)) = false.
Proof.
  apply (verifyChain_rejects_missing_chain_data
           Fixture.digest (new_HashChain Fixture.digest sha256)
           (Fixture.raw "z" 5 "probe" :: Fixture.three)
           (Fixture.raw "z" 5 "probe")).
  - left. reflexivity.
  - reflexivity.
Defined.

(** The three sample entries without the second one. *)
Lemma verifyChain_detects_removed_entry_witness :
  let c := snd (chain_entries Fixture.digest Fixture.JSON_stringify
                  (new_HashChain Fixture.digest sha256) Fixture.three_raw) in
  valid (verifyChain Fixture.digest c (remove_at 1 Fixture.three)) = false
  /\ brokenAt (verifyChain Fixture.digest c (remove_at 1 Fixture.three))
     = Some 1.
Proof.
  apply (verifyChain_detects_removed_entry
           Fixture.digest Fixture.JSON_stringify sha256 Fixture.three_raw
           1%nat); simpl; lia.
Defined.

(** The three sample entries, written again by a chain that restarted. *)
Lemma verifyChain_rejects_restarted_chain_witness :
  valid (verifyChain Fixture.digest (new_HashChain Fixture.digest sha256)
                     (Fixture.three ++ Fixture.three)) = false.
Proof.
  apply (verifyChain_rejects_restarted_chain
           Fixture.digest Fixture.JSON_stringify sha256 sha256
           Fixture.three_raw Fixture.three_raw
           (new_HashChain Fixture.digest sha256)); discriminate.
Defined.

(** The first of the three sample entries passes [verifyEntry]. *)
Lemma verifyEntry_accepts_chained_entry_witness :
  let e := hd (Fixture.raw "" 0 "") Fixture.three in
  let c := snd (chain_entries Fixture.digest Fixture.JSON_stringify
                  (new_HashChain Fixture.digest sha256) Fixture.three_raw) in
  exists ce,
    chain e = Some ce
    /\ verifyEntry Fixture.digest Fixture.JSON_stringify c e (previousHash ce)
       = true.
Proof.
  intros e c.
  apply (verifyEntry_accepts_chained_entry
           Fixture.digest Fixture.JSON_stringify sha256 Fixture.three_raw e).
  left. reflexivity.
Defined.

(** The third of the three sample entries has sequence 2. *)
Lemma getState_after_entries_witness :
  exists ce,
    chain (nth 2 Fixture.three (Fixture.raw "" 0 "")) = Some ce
    /\ sequence ce = 2.
Proof.
  destruct (getState_after_entries
              Fixture.digest Fixture.JSON_stringify sha256 Fixture.three_raw)
    as [Hnth _].
  exact (Hnth 2%nat _ eq_refl).
Defined.

(** The newest of the three stored entries is returned, stored and
    matching. *)
Lemma query_returns_stored_matches_witness :
  let e := nth 2 Fixture.three (Fixture.raw "" 0 "") in
  In e (mem_entries Fixture.store3) /\ matches Sample.no_filter e = true.
Proof.
  intros e.
  destruct (query_returns_stored_matches Fixture.store3 Sample.no_filter)
    as (_ & _ & Hin).
  apply Hin. left. reflexivity.
Defined.

Lemma query_size_bounds_witness :
  Array_length
    (entries (MemoryStore_query Fixture.store3
                                (Fixture.page (Some 1) (Some 1)))) <= 1.
Proof.
  destruct (query_size_bounds Fixture.store3
                              (Fixture.page (Some 1) (Some 1)))
    as [_ Hlimit].
  apply Hlimit. simpl. lia.
Defined.

Lemma query_entries_sorted_witness :
  StronglySorted newest_first
    (entries (MemoryStore_query Fixture.store3 Sample.no_filter)).
Proof.
  destruct (query_entries_sorted Fixture.store3 Sample.no_filter)
    as [_ Hdesc].
  apply Hdesc. discriminate.
Defined.

Lemma query_pages_join_witness :
  entries (MemoryStore_query Fixture.store3 (paged Sample.no_filter 1 0))
  ++ entries (MemoryStore_query Fixture.store3 (paged Sample.no_filter 2 1))
  = entries (MemoryStore_query Fixture.store3 (paged Sample.no_filter 3 0)).
Proof.
  apply (query_pages_join Fixture.store3 Sample.no_filter 0 1 2); lia.
Defined.

Lemma MemoryStore_write_appends_witness :
  exists dropped kept,
    mem_entries Fixture.store3 = dropped ++ kept
    /\ mem_entries (MemoryStore_write Fixture.store3
                                      (Fixture.raw "d" 40 "delete"))
       = kept ++ [Fixture.raw "d" 40 "delete"].
Proof.
  apply (MemoryStore_write_appends Fixture.store3
                                   (Fixture.raw "d" 40 "delete")).
  simpl. lia.
Defined.

Lemma withCompliance_presets_witness :
  90 <= retentionDays (withCompliance Fixture.env GDPR empty_partial) <= 2190.
Proof.
  destruct (withCompliance_presets Fixture.env GDPR empty_partial)
    as (_ & Hdays & _).
  apply Hdays. reflexivity.
Defined.



(** Three events logged to a chaining logger whose store holds two. *)
Lemma logged_entries_verify_witness :
  let lg :=
    fst (fst (log_all Fixture.digest Fixture.JSON_stringify
                      Fixture.JSON_stringify_entry Fixture.io_outcome
                      [("a", 10, Fixture.ev "login");
                       ("b", 20, Fixture.ev "read");
                       ("c", 30, Fixture.ev "logout")]
                      (new_AuditLogger Fixture.env Fixture.digest
                                       (Fixture.partial (Some true) None)
                                       (new_MemoryStore (Some 2)),
                       []))) in
  logger_verifyChain Fixture.digest lg (mem_entries (lg_store lg)) = verify_ok.
Proof.
  intros lg.
  destruct (logged_entries_verify
              Fixture.env Fixture.digest Fixture.JSON_stringify
              Fixture.JSON_stringify_entry Fixture.io_outcome
              (Fixture.partial (Some true) None) 2
              [("a", 10, Fixture.ev "login");
               ("b", 20, Fixture.ev "read");
               ("c", 30, Fixture.ev "logout")] [])
    as (_ & _ & _ & Hverify).
  - reflexivity.
  - lia.
  - apply Hverify. apply Permutation_refl.
Defined.

(** A chaining logger over a store that rejects every write. *)
Lemma log_rejected_write_advances_chain_witness :
  let lg :=
    new_AuditLogger Fixture.env Fixture.digest
                    (Fixture.partial (Some true) None) Sample.broken_store in
  let r :=
    log Fixture.digest Fixture.JSON_stringify Fixture.JSON_stringify_entry
        Fixture.io_outcome "a" 10 (Fixture.ev "login") (lg, []) in
  snd r = Rejected "disk full"
  /\ option_map chain_sequence (lg_chain (fst (fst r))) = Some 1.
Proof.
  intros lg r.
  destruct (log_rejected_write_advances_chain
              Fixture.digest Fixture.JSON_stringify
              Fixture.JSON_stringify_entry Fixture.io_outcome
              lg [] "a" 10 (Fixture.ev "login")
              (new_HashChain Fixture.digest sha256) "disk full")
    as (Hrejected & _ & Hchain).
  - reflexivity.
  - reflexivity.
  - split; [exact Hrejected|reflexivity].
Defined.

(** An entry logged with chaining off. *)
Lemma unchained_entry_never_verifies_witness :
  let r :=
    log Fixture.digest Fixture.JSON_stringify Fixture.JSON_stringify_entry
        Fixture.io_outcome "a" 10 (Fixture.ev "login")
        (new_AuditLogger Fixture.env Fixture.digest
                         (Fixture.partial None None) (new_MemoryStore None),
         []) in
  let entry := match snd r with
               | Fulfilled e => e
               | Rejected _ => Fixture.raw "" 0 ""
               end in
  chain entry = None
  /\ valid (verifyChain Fixture.digest (new_HashChain Fixture.digest sha256)
                        [entry]) = false.
Proof.
  intros r entry.
  assert (H : r = (fst r, Fulfilled entry)) by (vm_compute; reflexivity).
  apply (unchained_entry_never_verifies
           Fixture.digest Fixture.JSON_stringify
           Fixture.JSON_stringify_entry Fixture.io_outcome
           (new_AuditLogger Fixture.env Fixture.digest
                            (Fixture.partial None None)
                            (new_MemoryStore None))
           [] "a" 10 (Fixture.ev "login") (fst r) entry
           (new_HashChain Fixture.digest sha256) [entry]).
  - reflexivity.
  - exact H.
  - left. reflexivity.
Defined.

(** Three writes to a file store that buffers two entries, the timer
    firing after the first write: the third entry is still buffered. *)
Lemma FileStore_close_flushes_all_witness :
  let written :=
    fst (FileStore_run Fixture.JSON_stringify_entry Sample.io_ok
                       Sample.three_writes (Sample.file_store, [])) in
  Array_length (fs_buffer (fst written)) < 2 \/ fs_buffer (fst written) = [].
Proof.
  intros written.
  destruct (FileStore_close_flushes_all
              Fixture.JSON_stringify_entry Sample.io_ok Sample.three_writes
              Sample.file_store []) as (_ & _ & Hbound).
  apply Hbound. discriminate.
Defined.

(** A write that fills the buffer of a file that cannot be appended to. *)
Lemma FileStore_rejected_write_drops_buffer_witness :
  let f := mkFileStore "/audit.jsonl" [] 1 1000 true in
  fs_buffer
    (fst (fst (FileStore_write Fixture.JSON_stringify_entry
                               Fixture.io_outcome
                               (Fixture.raw "a" 10 "login") (f, [])))) = [].
Proof.
  intros f.
  apply (FileStore_rejected_write_drops_buffer
           Fixture.JSON_stringify_entry Fixture.io_outcome
           (Fixture.raw "a" 10 "login") f [] "EACCES").
  reflexivity.
Defined.

Lemma csv_field_inj_witness : "say" = "say".
Proof. apply (csv_field_inj "say" "say"). reflexivity. Defined.

Lemma sample_lines_parse :
  Forall (fun e =>
            one_line (Fixture.JSON_stringify_entry e)
            /\ Sample.JSON_parse_entry (Fixture.JSON_stringify_entry e)
               = Some e) Fixture.three.
Proof.
  repeat constructor; eexists _, _; repeat split; reflexivity.
Defined.

(** The three sample entries written to an empty file store and queried. *)
Lemma FileStore_query_reads_writes_witness :
  snd (FileStore_query Fixture.JSON_stringify_entry Sample.JSON_parse_entry
         Sample.io_ok Sample.fs_read Sample.no_filter
         (fst (FileStore_run Fixture.JSON_stringify_entry Sample.io_ok
                             Sample.three_writes (Sample.file_store, []))))
  = Fulfilled (MemoryStore_query (mkMemoryStore Fixture.three 3)
                                 Sample.no_filter).
Proof.
  apply (FileStore_query_reads_writes
           Fixture.JSON_stringify_entry Sample.JSON_parse_entry
           Sample.io_ok Sample.fs_read Sample.file_store []
           Sample.three_writes Sample.no_filter).
  - reflexivity.
  - reflexivity.
  - reflexivity.
  - reflexivity.
  - exact sample_lines_parse.
Defined.

Lemma exportEntries_formats_witness :
  exportEntries Fixture.JSON_stringify_entry (fun _ => "[]")
                (fun _ => "1970-01-01T00:00:00.000Z")
                (fun _ _ => Fulfilled tt) Fixture.three "/out.xml" "xml"
  = (None, Rejected "Unknown export format: xml").
Proof.
  destruct (exportEntries_formats
              Fixture.JSON_stringify_entry (fun _ => "[]")
              (fun _ => "1970-01-01T00:00:00.000Z")
              (fun _ _ => Fulfilled tt) Fixture.three "/out.xml" "xml")
    as [Hunknown _].
  apply Hunknown; discriminate.
Defined.

Lemma jsonl_export_reads_back_witness :
  exists content,
    export_content Fixture.JSON_stringify_entry (fun _ => "[]")
                   (fun _ => "1970-01-01T00:00:00.000Z") Fixture.three "jsonl"
    = inr content
    /\ read_entries Sample.JSON_parse_entry content = Fixture.three.
Proof.
  destruct (jsonl_export_reads_back
              Fixture.JSON_stringify_entry Sample.JSON_parse_entry
              (fun _ => "[]") (fun _ => "1970-01-01T00:00:00.000Z")
              Fixture.three sample_lines_parse)
    as (content & Hc & Hr & _).
  exists content. now split.
Defined.
